(** * innerVoice: session registry, message router, task queue,
      process supervisor and pending questions

    A shallow embedding of the TypeScript sources
      - [src/queue-manager.ts]   (module [QueueManager]),
      - [claude-spawner.ts]      (modules [ClaudeSpawner], [Children]),
      - the bridge server        (module [Bridge]),
    followed by the properties established about them.

    Conventions of the embedding.
      - Instants ([Date], [Date.now()]) are integers, milliseconds since the
        epoch.  Whatever the code reads from its surroundings during a call
        (the clock, the random suffix, what the operating system answers to
        [spawn]) is an argument of the embedded function.
      - A JavaScript [Map] whose iteration order is observed is an
        association list in insertion order; one that is only probed by key
        is a [gmap].
      - The queue directory is a finite map from file names to the task
        lists stored in them.
      - Strings are sequences of 8-bit characters; the functions on them are
        those of JavaScript restricted to ASCII.
      - A handler runs to completion and reads the clock once: the event
        loop is single threaded and the interleavings at [await] are not
        part of this model.
      - Sending to the chat, reading and writing the queue files, the
        Project Directory ([findProject], [touchProject]) and [kill] do not
        throw. *)

From Stdlib Require Import ZArith Ascii String List Lia Bool.
From stdpp Require Import base gmap strings list fin_maps pretty.

Open Scope Z_scope.

(** ** JavaScript string primitives used by the sources *)

Module JsString.

Definition code (c : ascii) : nat := nat_of_ascii c.

Definition between (lo hi : nat) (c : ascii) : bool :=
  (lo <=? code c)%nat && (code c <=? hi)%nat.

Definition isLower : ascii -> bool := between 97 122.
Definition isUpper : ascii -> bool := between 65 90.
Definition isDigit : ascii -> bool := between 48 57.

(** The character class [[a-zA-Z0-9-_]]; with the [i] flag [[a-z0-9-_]]
    denotes the same set. *)
Definition isNameChar (c : ascii) : bool :=
  isLower c || isUpper c || isDigit c
  || Ascii.eqb c "-"%char || Ascii.eqb c "_"%char.

(** [\s] on ASCII: tab, line feed, vertical tab, form feed, carriage
    return, space. *)
Definition isSpace (c : ascii) : bool :=
  between 9 13 c || (code c =? 32)%nat.

(** The characters [.] refuses: line feed and carriage return. *)
Definition isLineTerminator (c : ascii) : bool :=
  (code c =? 10)%nat || (code c =? 13)%nat.

Definition lowerChar (c : ascii) : ascii :=
  if isUpper c then ascii_of_nat (code c + 32) else c.

Fixpoint mapChars (f : ascii -> ascii) (s : string) : string :=
  match s with
  | EmptyString => EmptyString
  | String c s' => String (f c) (mapChars f s')
  end.

Definition toLowerCase : string -> string := mapChars lowerChar.

(** [s.replace(/[^a-z0-9-_]/gi, '_')] *)
Definition replaceUnsafe : string -> string :=
  mapChars (fun c => if isNameChar c then c else "_"%char).

(** [s.replace(/_/g, '-')] *)
Definition replaceUnderscores : string -> string :=
  mapChars (fun c => if Ascii.eqb c "_"%char then "-"%char else c).

Fixpoint dropChars (n : nat) (s : string) : string :=
  match n, s with
  | O, _ => s
  | S _, EmptyString => EmptyString
  | S n', String _ s' => dropChars n' s'
  end.

(** [s.replace(pat, rep)] with a string pattern: the first occurrence
    only. *)
Fixpoint replaceFirst (pat rep s : string) : string :=
  if String.prefix pat s then rep +:+ dropChars (String.length pat) s
  else match s with
       | EmptyString => EmptyString
       | String c s' => String c (replaceFirst pat rep s')
       end.

Definition endsWith (s suffix : string) : bool :=
  let n := String.length s in
  let k := String.length suffix in
  (k <=? n)%nat && String.eqb (dropChars (n - k) s) suffix.

(** [s.trim()], on ASCII: white space is dropped at both ends. *)
Fixpoint trimStart (s : string) : string :=
  match s with
  | EmptyString => EmptyString
  | String c s' => if isSpace c then trimStart s' else s
  end.

Fixpoint trimEnd (s : string) : string :=
  match s with
  | EmptyString => EmptyString
  | String c s' =>
      match trimEnd s' with
      | EmptyString => if isSpace c then EmptyString else String c EmptyString
      | t => String c t
      end
  end.

Definition trim (s : string) : string := trimEnd (trimStart s).

(** The line feed, the double quote. *)
Definition lineFeed : ascii := ascii_of_nat 10.
Definition doubleQuote : ascii := ascii_of_nat 34.

(** [s.split('\n')] *)
Fixpoint splitLines (s : string) : list string :=
  match s with
  | EmptyString => [EmptyString]
  | String c s' =>
      if Ascii.eqb c lineFeed then EmptyString :: splitLines s'
      else match splitLines s' with
           | line :: lines => String c line :: lines
           | [] => [String c EmptyString]
           end
  end.

(** [s.indexOf(c)] for a single character; [None] stands for -1. *)
Fixpoint indexOfChar (c : ascii) (s : string) : option nat :=
  match s with
  | EmptyString => None
  | String x s' =>
      if Ascii.eqb x c then Some O
      else match indexOfChar c s' with
           | Some i => Some (S i)
           | None => None
           end
  end.

Definition startsWithChar (c : ascii) (s : string) : bool :=
  match s with
  | String x _ => Ascii.eqb x c
  | EmptyString => false
  end.

Fixpoint endsWithChar (c : ascii) (s : string) : bool :=
  match s with
  | EmptyString => false
  | String x EmptyString => Ascii.eqb x c
  | String _ s' => endsWithChar c s'
  end.

(** [s.slice(1, -1)] *)
Definition sliceInner (s : string) : string :=
  String.substring 1 (String.length s - 2) s.

End JsString.

(** ** [src/queue-manager.ts] *)

Module QueueManager.
Import JsString.

Inductive Priority := low | normal | high.
Inductive Status := pending | delivered | expired.

Record QueuedTask := mkTask {
  id : string;
  projectName : string;
  projectPath : string;
  message : string;
  from : string;
  timestamp : Z;
  priority : Priority;
  status : Status
}.

Definition Status_eqb (a b : Status) : bool :=
  match a, b with
  | pending, pending | delivered, delivered | expired, expired => true
  | _, _ => false
  end.

Definition withStatus (s : Status) (t : QueuedTask) : QueuedTask :=
  mkTask (id t) (projectName t) (projectPath t) (message t) (from t)
         (timestamp t) (priority t) s.

(** The queue directory: file name (inside [QUEUE_DIR]) to stored list. *)
Abbreviation QueueDir := (gmap string (list QueuedTask)).

(** [getQueuePath]: the file name of a project's queue. *)
Definition getQueuePath (projectName : string) : string :=
  toLowerCase (replaceUnsafe projectName) +:+ ".json".

(** [loadQueue]: the stored list, or the empty list when the file does not
    exist. *)
Definition loadQueue (projectName : string) (fs : QueueDir)
  : list QueuedTask :=
  match fs !! getQueuePath projectName with
  | Some tasks => tasks
  | None => []
  end.

Definition saveQueue (projectName : string) (tasks : list QueuedTask)
                     (fs : QueueDir) : QueueDir :=
  <[getQueuePath projectName := tasks]> fs.

(** [enqueueTask]; [now] is [Date.now()] and [rnd] the random suffix
    [Math.random().toString(36).substr(2, 9)]. *)
Definition enqueueTask (now : Z) (rnd : string)
    (projectName projectPath message from : string)
    (priority : Priority) (timestamp : Z) (fs : QueueDir)
  : QueueDir * QueuedTask :=
  let queue := loadQueue projectName fs in
  let newTask :=
    mkTask (pretty now +:+ "-" +:+ rnd) projectName projectPath message
           from timestamp priority pending in
  (saveQueue projectName (queue ++ [newTask]) fs, newTask).

Definition getPendingTasks (projectName : string) (fs : QueueDir)
  : list QueuedTask :=
  List.filter (fun t => Status_eqb (status t) pending)
              (loadQueue projectName fs).

(** [queue.find(t => t.id === taskId)] followed by the in-place update of
    the task found: the first task with that id. *)
Fixpoint deliverFirst (taskId : string) (queue : list QueuedTask)
  : option (list QueuedTask) :=
  match queue with
  | [] => None
  | t :: rest =>
      if String.eqb (id t) taskId then Some (withStatus delivered t :: rest)
      else match deliverFirst taskId rest with
           | Some rest' => Some (t :: rest')
           | None => None
           end
  end.

Definition markTaskDelivered (projectName taskId : string) (fs : QueueDir)
  : QueueDir :=
  match deliverFirst taskId (loadQueue projectName fs) with
  | Some queue' => saveQueue projectName queue' fs
  | None => fs
  end.

Section Cleanup.
(** [cutoff.setDate(cutoff.getDate() - daysOld)] works on the local
    calendar; the instant it yields is a parameter here. *)
Variable setDateBack : Z -> Z -> Z.

(** The predicate of the [filter] in [cleanupOldTasks]. *)
Definition keepTask (cutoff : Z) (t : QueuedTask) : bool :=
  if Status_eqb (status t) delivered && (timestamp t <? cutoff)
  then false else true.

(** [cleanupOldTasks(projectName, daysOld = 7)] *)
Definition cleanupOldTasks (now : Z) (projectName : string)
    (daysOld : option Z) (fs : QueueDir) : QueueDir * nat :=
  let queue := loadQueue projectName fs in
  let cutoff :=
    setDateBack now (match daysOld with Some d => d | None => 7 end) in
  let filtered := List.filter (keepTask cutoff) queue in
  let removed := (length queue - length filtered)%nat in
  (if (0 <? removed)%nat then saveQueue projectName filtered fs else fs,
   removed).
End Cleanup.

(** [readdir]: the names in the directory, in the order the map
    enumerates them. *)
Definition readdir (fs : QueueDir) : list string := (map_to_list fs).*1.

Definition listProjectsWithQueues (fs : QueueDir) : list string :=
  List.map (fun f => replaceUnderscores (replaceFirst ".json" "" f))
           (List.filter (fun f => endsWith f ".json") (readdir fs)).

Record Summary := mkSummary {
  s_projectName : string;
  s_pending : nat;
  s_total : nat
}.

Definition summarize (fs : QueueDir) (projectName : string) : Summary :=
  let queue := loadQueue projectName fs in
  mkSummary projectName
    (length (List.filter (fun t => Status_eqb (status t) pending) queue))
    (length queue).

Definition getQueueSummary (fs : QueueDir) : list Summary :=
  List.filter (fun s => (0 <? s_total s)%nat)
              (List.map (summarize fs) (listProjectsWithQueues fs)).

End QueueManager.


(** ** The Project Directory ([project-registry.ts]) *)

Module ProjectRegistry.

(** Modelled from the spec: [project-registry.ts] is not among the sources;
    the spec gives the record that [find(name)] returns as
    [{name, path, autoSpawn, ...}].  The lookup itself is an argument of the
    functions that call [findProject]. *)
Record Project := mkProject {
  name : string;
  path : string;
  autoSpawn : bool
}.

End ProjectRegistry.

(** ** [claude-spawner.ts] *)

Module ClaudeSpawner.
Import ProjectRegistry.

(** What [spawn('claude', args, options)] does: it hands back a child
    process (whose [pid] may be undefined) or throws. *)
Inductive SpawnOutcome :=
| Launched (pid : option Z)
| SpawnThrew (error : string).

(** A child process started by [spawn]: working directory and arguments. *)
Record Child := mkChild {
  cwd : string;
  args : list string;
  childPid : option Z
}.

(** The callbacks the bridge passes as [onOutput] all forward to the chat,
    tagged with a project name. *)
Inductive OutputSink := TelegramSink (label : string).

Record SpawnedProcess := mkSpawned {
  projectName : string;
  process : nat;               (* the handle: index of the child started *)
  startTime : Z;
  initialPrompt : option string;
  onOutput : option OutputSink
}.

(** The module's state: the [activeProcesses] map, and every child process
    started so far. *)
Record Spawner := mkSpawner {
  activeProcesses : gmap string SpawnedProcess;
  children : list Child
}.

Definition noProcesses : Spawner := mkSpawner ∅ [].

Inductive SpawnMessage :=
| AlreadyRunning (projectName : string)
| NotInRegistry (projectName : string)
| Started (projectName : string) (initialPrompt : option string)
| FailedToSpawn (error : string)
| NoActiveProcess (projectName : string)
| Terminated (projectName : string).

Record SpawnResult := mkResult {
  success : bool;
  message : SpawnMessage;
  pid : option Z
}.

(** [initialPrompt ? [initialPrompt] : []]: an absent or empty prompt gives
    no argument. *)
Definition promptArgs (initialPrompt : option string) : list string :=
  match initialPrompt with
  | Some p => if String.eqb p "" then [] else [p]
  | None => []
  end.

Definition isClaudeRunning (projectName : string) (sp : Spawner) : bool :=
  match activeProcesses sp !! projectName with
  | Some _ => true
  | None => false
  end.

(** [spawnClaude].  [find] is the Project Directory at the time of the call,
    [os] what the operating system does with the [spawn], [now] the clock. *)
Definition spawnClaude (find : string -> option Project) (os : SpawnOutcome)
    (now : Z) (projectName : string) (initialPrompt : option string)
    (onOutput : option OutputSink) (sp : Spawner) : Spawner * SpawnResult :=
  if isClaudeRunning projectName sp then
    (sp, mkResult false (AlreadyRunning projectName) None)
  else
    match find projectName with
    | None => (sp, mkResult false (NotInRegistry projectName) None)
    | Some project =>
        match os with
        | SpawnThrew e => (sp, mkResult false (FailedToSpawn e) None)
        | Launched p =>
            let handle := length (children sp) in
            let child := mkChild (path project) (promptArgs initialPrompt) p in
            (mkSpawner
               (<[projectName :=
                    mkSpawned projectName handle now initialPrompt onOutput]>
                  (activeProcesses sp))
               (children sp ++ [child]),
             mkResult true (Started projectName initialPrompt) p)
        end
    end.

(** [killClaude] *)
Definition killClaude (projectName : string) (sp : Spawner)
  : Spawner * SpawnResult :=
  match activeProcesses sp !! projectName with
  | None => (sp, mkResult false (NoActiveProcess projectName) None)
  | Some _ =>
      (mkSpawner (delete projectName (activeProcesses sp)) (children sp),
       mkResult true (Terminated projectName) None)
  end.

(** The ['exit'] and ['error'] listeners registered by [spawnClaude]. *)
Definition onExit (projectName : string) (sp : Spawner) : Spawner :=
  mkSpawner (delete projectName (activeProcesses sp)) (children sp).

Definition onError (projectName : string) (sp : Spawner) : Spawner :=
  mkSpawner (delete projectName (activeProcesses sp)) (children sp).

(** A row of [listSpawnedProcesses]. *)
Record SpawnedRow := mkRow {
  rowName : string;
  rowPid : option Z;
  rowStart : Z;
  rowPrompt : option string;
  runningMinutes : Z
}.

(** [sp.process.pid]: the pid of the child behind a handle. *)
Definition pidOf (sp : Spawner) (handle : nat) : option Z :=
  match children sp !! handle with
  | Some child => childPid child
  | None => None
  end.

(** [listSpawnedProcesses]; [now] is [Date.now()].  [activeProcesses] is
    a [gmap], so the rows come in the order of [map_to_list] and not in
    that of insertion: what is proved of the listing does not depend on
    the order of its rows. *)
Definition listSpawnedProcesses (now : Z) (sp : Spawner) : list SpawnedRow :=
  List.map
    (fun e => mkRow (projectName e) (pidOf sp (process e)) (startTime e)
                    (initialPrompt e) ((now - startTime e) / 60000))
    (List.map snd (map_to_list (activeProcesses sp))).

(** The value of a line of [.env] without the quotes around it, if any. *)
Definition unquote (value : string) : string :=
  if (JsString.startsWithChar JsString.doubleQuote value
      && JsString.endsWithChar JsString.doubleQuote value)
     || (JsString.startsWithChar "'"%char value
         && JsString.endsWithChar "'"%char value)
  then JsString.sliceInner value else value.

(** The body of the loop of [loadEnvFile] for one line: the key and the
    value it assigns, if it assigns one. *)
Definition envLine (line : string) : option (string * string) :=
  let trimmed := JsString.trim line in
  if String.eqb trimmed "" || JsString.startsWithChar "#"%char trimmed
  then None
  else
    match JsString.indexOfChar "="%char trimmed with
    | Some eqIndex =>
        if (0 <? eqIndex)%nat then
          Some (JsString.trim (String.substring 0 eqIndex trimmed),
                unquote (JsString.trim (JsString.dropChars (S eqIndex) trimmed)))
        else None
    | None => None
    end.

(** [envVars[key] = value] on a plain object: assigning a string to
    [__proto__] creates no property. *)
Definition assignVar (env : gmap string string) (line : string)
  : gmap string string :=
  match envLine line with
  | Some (key, value) =>
      if String.eqb key "__proto__" then env else <[key := value]> env
  | None => env
  end.

(** [loadEnvFile]; [file] is the content of [.env] in the directory of the
    project, [None] when the file does not exist or cannot be read. *)
Definition loadEnvFile (file : option string) : gmap string string :=
  match file with
  | None => ∅
  | Some content => fold_left assignVar (JsString.splitLines content) ∅
  end.

(** The [env] option of [spawn]:
    [{...process.env, ...projectEnv, INNERVOICE_SPAWNED: '1'}]. *)
Definition childEnv (processEnv projectEnv : gmap string string)
  : gmap string string :=
  <["INNERVOICE_SPAWNED" := "1"]> (projectEnv ∪ processEnv).

End ClaudeSpawner.

(** ** The child processes behind the entries

    [activeProcesses] keeps handles; the processes themselves belong to the
    operating system.  This module follows both: the module's state as
    [spawnClaude], [killClaude] and the listeners leave it, and what has
    become of every child started. *)

Module Children.
Import ProjectRegistry ClaudeSpawner.

(** What has become of a child.  [spawn] hands back a child that runs, or
    one without a pid, which never started (the program or the directory
    is missing); [kill('SIGTERM')] asks a child to stop and does not wait;
    the ['exit'] event tells that the child is gone. *)
Inductive Life := Running | Signalled | NeverStarted | Gone.

(** [lives] has one element for each child started, in the order of
    [children]: the [projectName] of the call that started it, which is
    the name its ['exit'] and ['error'] listeners are closed over, and
    what has become of it. *)
Record Supervised := mkSupervised {
  table : Spawner;
  lives : list (string * Life)
}.

Definition nothingStarted : Supervised := mkSupervised noProcesses [].

(** The calls of the module's functions, and the ['exit'] and ['error']
    events of a child. *)
Inductive Action :=
| CallSpawn (find : string -> option Project) (os : SpawnOutcome) (now : Z)
            (projectName : string) (initialPrompt : option string)
            (onOutput : option OutputSink)
| CallKill (projectName : string)
| ExitOf (child : nat)
| ErrorOf (child : nat).

Definition born (pid : option Z) : Life :=
  match pid with
  | Some _ => Running
  | None => NeverStarted
  end.

(** [spawned.process.kill('SIGTERM')] *)
Definition signal (child : nat) (l : list (string * Life))
  : list (string * Life) :=
  match l !! child with
  | Some (name, Running) => <[child := (name, Signalled)]> l
  | _ => l
  end.

(** A child that runs, signalled or not, exits once, and its ['exit']
    listener runs; a child that never started raises ['error'] once, and
    its ['error'] listener runs.  Both listeners delete the entry of the
    name they are closed over. *)
Definition act (a : Action) (s : Supervised) : Supervised :=
  match a with
  | CallSpawn find os now name prompt sink =>
      let r := spawnClaude find os now name prompt sink (table s) in
      mkSupervised (fst r)
        (if success (snd r) then lives s ++ [(name, born (pid (snd r)))]
         else lives s)
  | CallKill name =>
      mkSupervised (fst (killClaude name (table s)))
        (match activeProcesses (table s) !! name with
         | Some e => signal (process e) (lives s)
         | None => lives s
         end)
  | ExitOf child =>
      match lives s !! child with
      | Some (name, Running) | Some (name, Signalled) =>
          mkSupervised (onExit name (table s))
                       (<[child := (name, Gone)]> (lives s))
      | _ => s
      end
  | ErrorOf child =>
      match lives s !! child with
      | Some (name, NeverStarted) =>
          mkSupervised (onError name (table s))
                       (<[child := (name, Gone)]> (lives s))
      | _ => s
      end
  end.

Definition perform (trace : list Action) (s : Supervised) : Supervised :=
  fold_left (fun s a => act a s) trace s.

(** The children started for a name that run undisturbed: started with a
    pid, not gone, and never sent a signal. *)
Definition runningFor (name : string) (s : Supervised) : list nat :=
  List.filter
    (fun child =>
       match lives s !! child with
       | Some (n, Running) => String.eqb n name
       | _ => false
       end)
    (seq 0 (length (lives s))).

End Children.

(** ** The bridge server: sessions, inbox, questions and the router *)

Module Bridge.
Import JsString ProjectRegistry.

(** *** A JavaScript [Map] with string keys, in insertion order *)

Section JsMap.
Context {V : Type}.

Fixpoint mapGet (k : string) (m : list (string * V)) : option V :=
  match m with
  | [] => None
  | (k', v) :: m' => if String.eqb k' k then Some v else mapGet k m'
  end.

Definition mapHas (k : string) (m : list (string * V)) : bool :=
  match mapGet k m with
  | Some _ => true
  | None => false
  end.

(** [m.set(k, v)]: an existing key keeps its place, a new one goes last. *)
Fixpoint mapSet (k : string) (v : V) (m : list (string * V))
  : list (string * V) :=
  match m with
  | [] => [(k, v)]
  | (k', v') :: m' =>
      if String.eqb k' k then (k, v) :: m' else (k', v') :: mapSet k v m'
  end.

Definition mapDelete (k : string) (m : list (string * V))
  : list (string * V) :=
  List.filter (fun e => negb (String.eqb (fst e) k)) m.

Definition mapKeys (m : list (string * V)) : list string := List.map fst m.
Definition mapValues (m : list (string * V)) : list V := List.map snd m.

End JsMap.

(** *** Data *)

Definition SESSION_TIMEOUT : Z := 30 * 60 * 1000.

Inductive SessionStatus := active | idle.

Record ClaudeSession := mkSession {
  id : string;
  projectName : string;
  projectPath : string;
  startTime : Z;
  lastActivity : Z;
  status : SessionStatus
}.

Record QueuedMessage := mkMessage {
  from : string;
  message : string;
  timestamp : Z;
  read : bool;
  sessionId : option string
}.

(** An entry of [pendingQuestions]: [resolve] is the promise the [/ask]
    handler awaits (promises are numbered in creation order), [timeout] the
    handle [setTimeout] returned. *)
Record PendingQuestion := mkQuestion {
  resolve : nat;
  timeout : nat
}.

Inductive Settlement :=
| Waiting
| Answered (answer : string)
| TimedOut.

(** A timer armed by [/ask]: its callback deletes [questionId] from
    [pendingQuestions] and rejects the promise [reject]. *)
Record Timer := mkTimer {
  questionId : string;
  reject : nat;
  delay : Z
}.

Record State := mkState {
  activeSessions : list (string * ClaudeSession);
  messageQueue : list QueuedMessage;
  pendingQuestions : list (string * PendingQuestion);
  lastMessageSession : option string;
  chatId : option string;
  ENABLED : bool;
  spawner : ClaudeSpawner.Spawner;
  queues : QueueManager.QueueDir;
  promises : list Settlement;
  timers : gmap nat Timer;
  nextTimer : nat
}.

Definition initial (chat : option string) (enabled : bool) : State :=
  mkState [] [] [] None chat enabled ClaudeSpawner.noProcesses ∅ [] ∅ 0.

Definition setSessions (v : list (string * ClaudeSession)) (st : State) :=
  mkState v (messageQueue st) (pendingQuestions st) (lastMessageSession st)
    (chatId st) (ENABLED st) (spawner st) (queues st) (promises st)
    (timers st) (nextTimer st).

Definition setMessageQueue (v : list QueuedMessage) (st : State) :=
  mkState (activeSessions st) v (pendingQuestions st) (lastMessageSession st)
    (chatId st) (ENABLED st) (spawner st) (queues st) (promises st)
    (timers st) (nextTimer st).

Definition setLastMessageSession (v : option string) (st : State) :=
  mkState (activeSessions st) (messageQueue st) (pendingQuestions st) v
    (chatId st) (ENABLED st) (spawner st) (queues st) (promises st)
    (timers st) (nextTimer st).

Definition setChatId (v : option string) (st : State) :=
  mkState (activeSessions st) (messageQueue st) (pendingQuestions st)
    (lastMessageSession st) v (ENABLED st) (spawner st) (queues st)
    (promises st) (timers st) (nextTimer st).

Definition setEnabled (v : bool) (st : State) :=
  mkState (activeSessions st) (messageQueue st) (pendingQuestions st)
    (lastMessageSession st) (chatId st) v (spawner st) (queues st)
    (promises st) (timers st) (nextTimer st).

Definition setSpawner (v : ClaudeSpawner.Spawner) (st : State) :=
  mkState (activeSessions st) (messageQueue st) (pendingQuestions st)
    (lastMessageSession st) (chatId st) (ENABLED st) v (queues st)
    (promises st) (timers st) (nextTimer st).

Definition setQueues (v : QueueManager.QueueDir) (st : State) :=
  mkState (activeSessions st) (messageQueue st) (pendingQuestions st)
    (lastMessageSession st) (chatId st) (ENABLED st) (spawner st) v
    (promises st) (timers st) (nextTimer st).

(** The part of the state the questions live in, replaced as a whole. *)
Definition setQuestions (qs : list (string * PendingQuestion))
    (ps : list Settlement) (ts : gmap nat Timer) (next : nat) (st : State) :=
  mkState (activeSessions st) (messageQueue st) qs (lastMessageSession st)
    (chatId st) (ENABLED st) (spawner st) (queues st) ps ts next.

(** What a call reads from its surroundings. *)
Record Env := mkEnv {
  now : Z;                                   (* [Date.now()], [new Date()] *)
  rnd : string;                              (* suffix of a new task id *)
  findProject : string -> option Project;    (* the Project Directory *)
  os : ClaudeSpawner.SpawnOutcome            (* the answer to [spawn] *)
}.

(** The replies the text handler sends with [ctx.reply]. *)
Inductive Reply :=
| AnswerReceived
| SentToActiveSession (projectName : string)
| AutoSpawning (projectName : string)
| ClaudeStarted (projectName : string) (pid : option Z)
| AutoSpawnFailed (why : ClaudeSpawner.SpawnMessage)
| QueuedOffline (projectName : string)
| QueuedNotRegistered (projectName : string)
| AutoRouted (projectName sessionId : string)
| MessageReceived.

(** The answer of an HTTP handler: a body, or an error status. *)
Inductive Http (A : Type) :=
| ok (body : A)
| failed (code : nat).
Arguments ok {A} body.
Arguments failed {A} code.

(** JavaScript truthiness of an optional string. *)
Definition truthy (o : option string) : bool :=
  match o with
  | Some s => negb (String.eqb s "")
  | None => false
  end.

(** *** Session registry *)

Definition touch (t : Z) (s : ClaudeSession) : ClaudeSession :=
  mkSession (id s) (projectName s) (projectPath s) (startTime s) t (status s).

Definition refresh (t : Z) (s : ClaudeSession) : ClaudeSession :=
  mkSession (id s) (projectName s) (projectPath s) (startTime s) t active.

(** [POST /session/register] *)
Definition register (now : Z) (sessionId projectName projectPath : string)
    (st : State) : State * Http (string * string) :=
  if String.eqb sessionId "" || String.eqb projectName ""
     || String.eqb projectPath "" then (st, failed 400)
  else
    match mapGet sessionId (activeSessions st) with
    | Some existing =>
        (setSessions
           (mapSet sessionId (refresh now existing) (activeSessions st)) st,
         ok (sessionId, projectName))
    | None =>
        (setSessions
           (mapSet sessionId
              (mkSession sessionId projectName projectPath now now active)
              (activeSessions st)) st,
         ok (sessionId, projectName))
    end.

(** [POST /session/heartbeat] *)
Definition heartbeat (now : Z) (sessionId : string) (st : State)
  : State * Http unit :=
  if String.eqb sessionId "" then (st, failed 400)
  else
    match mapGet sessionId (activeSessions st) with
    | Some session =>
        (setSessions
           (mapSet sessionId (refresh now session) (activeSessions st)) st,
         ok tt)
    | None => (st, failed 404)
    end.

(** The condition of the expiry loop. *)
Definition expired (now : Z) (session : ClaudeSession) : bool :=
  SESSION_TIMEOUT <? now - lastActivity session.

(** The body of the [setInterval] callback: every entry of the map is
    visited, and an expired one is deleted by its key. *)
Definition sweepSessions (now : Z) (sessions : list (string * ClaudeSession))
  : list (string * ClaudeSession) :=
  fold_left
    (fun m e => if expired now (snd e) then mapDelete (fst e) m else m)
    sessions sessions.

Definition sweep (now : Z) (st : State) : State :=
  setSessions (sweepSessions now (activeSessions st)) st.

(** An element of the answer of [GET /sessions]. *)
Record SessionView := mkView {
  session : ClaudeSession;
  idleMinutes : Z
}.

Definition listSessions (now : Z) (st : State) : list SessionView :=
  List.map (fun s => mkView s ((now - lastActivity s) / 60000))
           (mapValues (activeSessions st)).

(** *** Notifications *)

(** [POST /notify]; the state changes before the message is sent. *)
Definition notify (now : Z) (message : string) (sessionId : option string)
    (st : State) : State * Http unit :=
  if negb (ENABLED st) then (st, failed 503)
  else if negb (truthy (chatId st)) then (st, failed 400)
  else if String.eqb message "" then (st, failed 400)
  else
    match sessionId with
    | Some sid =>
        if String.eqb sid "" then (st, ok tt)
        else
          match mapGet sid (activeSessions st) with
          | Some session =>
              (setLastMessageSession (Some sid)
                 (setSessions
                    (mapSet sid (touch now session) (activeSessions st)) st),
               ok tt)
          | None => (st, ok tt)
          end
    | None => (st, ok tt)
    end.

(** *** The generic inbox *)

Definition markRead (m : QueuedMessage) : QueuedMessage :=
  mkMessage (from m) (message m) (timestamp m) true (sessionId m).

(** The loop of [POST /messages/read], with its counter [marked]. *)
Fixpoint markLoop (toMark marked : Z) (queue : list QueuedMessage)
  : list QueuedMessage * Z :=
  match queue with
  | [] => ([], marked)
  | msg :: rest =>
      if negb (read msg) && (marked <? toMark) then
        let (rest', n) := markLoop toMark (marked + 1) rest in
        (markRead msg :: rest', n)
      else
        let (rest', n) := markLoop toMark marked rest in
        (msg :: rest', n)
  end.

Definition unreadCount (queue : list QueuedMessage) : Z :=
  Z.of_nat (length (List.filter (fun m => negb (read m)) queue)).

(** [POST /messages/read]; [count] is the field of the request body. *)
Definition messagesRead (count : option Z) (st : State) : State * Z :=
  let toMark :=
    match count with
    | Some c => if c =? 0 then unreadCount (messageQueue st) else c
    | None => unreadCount (messageQueue st)
    end in
  let (queue', marked) := markLoop toMark 0 (messageQueue st) in
  (setMessageQueue queue' st, marked).

(** [GET /messages] *)
Definition getMessages (st : State) : list QueuedMessage :=
  List.filter (fun m => negb (read m)) (messageQueue st).

(** *** Pending questions *)

(** Settling a promise: only a promise that is still waiting changes. *)
Definition settle (p : nat) (v : Settlement) (ps : list Settlement)
  : list Settlement :=
  match ps !! p with
  | Some Waiting => <[p := v]> ps
  | _ => ps
  end.

(** [POST /ask], up to the point where the handler awaits the promise; the
    body of the answer is that promise. *)
Definition ask (now : Z) (question : string) (timeoutMs : option Z)
    (st : State) : State * Http nat :=
  if negb (truthy (chatId st)) then (st, failed 400)
  else if String.eqb question "" then (st, failed 400)
  else
    let questionId := pretty now in
    let promise := length (promises st) in
    let timer := nextTimer st in
    let ms := match timeoutMs with Some ms => ms | None => 300000 end in
    (setQuestions
       (mapSet questionId (mkQuestion promise timer) (pendingQuestions st))
       (promises st ++ [Waiting])
       (<[timer := mkTimer questionId promise ms]> (timers st))
       (S timer) st,
     ok promise).

(** The callback of the timer [timer], when it fires. *)
Definition onTimeout (timer : nat) (st : State) : State :=
  match timers st !! timer with
  | None => st
  | Some t =>
      setQuestions
        (mapDelete (questionId t) (pendingQuestions st))
        (settle (reject t) TimedOut (promises st))
        (delete timer (timers st))
        (nextTimer st) st
  end.

(** What [/ask] finally answers for the promise [p]: the answer, status 500
    after a timeout, nothing yet while the promise is waiting. *)
Definition askResponse (p : nat) (st : State) : option (Http string) :=
  match promises st !! p with
  | Some (Answered a) => Some (ok a)
  | Some TimedOut => Some (failed 500)
  | _ => None
  end.

(** *** The text handler *)

Fixpoint spanChars (p : ascii -> bool) (s : string) : string * string :=
  match s with
  | EmptyString => (EmptyString, EmptyString)
  | String c s' =>
      if p c then let (a, b) := spanChars p s' in (String c a, b)
      else (EmptyString, s)
  end.

(** The last character of [s] that satisfies [p]. *)
Fixpoint lastChar (p : ascii -> bool) (s : string) : option ascii :=
  match s with
  | EmptyString => None
  | String c s' =>
      match lastChar p s' with
      | Some d => Some d
      | None => if p c then Some c else None
      end
  end.

Definition notLineTerminator (c : ascii) : bool := negb (isLineTerminator c).

(** [message.match(/^([a-zA-Z0-9-_]+):\s*(.+)/)], giving the two groups.
    The name is the longest run of name characters, which a colon must
    follow.  [\s*] then takes the whole run of white space; if something
    follows, it is not a line terminator and [(.+)] runs from there to the
    end of the line.  If nothing follows, the matcher gives white space back
    until [.] accepts a character: the last one of the run that is not a
    line terminator, which is then all of the second group. *)
Definition projectMatch (message : string) : option (string * string) :=
  let (target, rest) := spanChars isNameChar message in
  match target, rest with
  | String _ _, String colon afterColon =>
      if Ascii.eqb colon ":"%char then
        let (blank, text) := spanChars isSpace afterColon in
        match text with
        | String _ _ => Some (target, fst (spanChars notLineTerminator text))
        | EmptyString =>
            match lastChar notLineTerminator blank with
            | Some c => Some (target, String c EmptyString)
            | None => None
            end
        end
      else None
  | _, _ => None
  end.

(** [Array.from(activeSessions.values()).find(s => s.projectName.toLowerCase()
    === targetProject.toLowerCase())] *)
Definition findSession (targetProject : string)
    (sessions : list (string * ClaudeSession)) : option ClaudeSession :=
  List.find
    (fun s => String.eqb (toLowerCase (projectName s))
                         (toLowerCase targetProject))
    (mapValues sessions).

Definition pushMessage (m : QueuedMessage) (st : State) : State :=
  setMessageQueue (messageQueue st ++ [m]) st.

Definition enqueue (env : Env) (projectName projectPath message from : string)
    (st : State) : State :=
  setQueues
    (fst (QueueManager.enqueueTask (now env) (rnd env) projectName projectPath
            message from QueueManager.normal (now env) (queues st)))
    st.

(** The body of the [try] in the handler: the Project Directory decides
    between starting a worker and queueing. *)
Definition spawnOrQueue (env : Env) (from targetProject actualMessage : string)
    (st : State) : State * list Reply :=
  match findProject env targetProject with
  | Some project =>
      if autoSpawn project then
        let (sp, result) :=
          ClaudeSpawner.spawnClaude (findProject env) (os env) (now env)
            (name project) (Some actualMessage)
            (Some (ClaudeSpawner.TelegramSink (name project)))
            (spawner st) in
        if ClaudeSpawner.success result then
          (setSpawner sp st,
           [AutoSpawning (name project);
            ClaudeStarted (name project) (ClaudeSpawner.pid result)])
        else
          (enqueue env targetProject (path project) actualMessage from
                   (setSpawner sp st),
           [AutoSpawning (name project);
            AutoSpawnFailed (ClaudeSpawner.message result)])
      else
        (enqueue env targetProject (path project) actualMessage from st,
         [QueuedOffline (name project)])
  | None =>
      (enqueue env targetProject "/unknown" actualMessage from st,
       [QueuedNotRegistered targetProject])
  end.

(** The branch of the handler for a message [targetProject: actualMessage]. *)
Definition routeToProject (env : Env) (from targetProject actualMessage : string)
    (st : State) : State * list Reply :=
  let activeSession := findSession targetProject (activeSessions st) in
  let claudeActuallyRunning :=
    ClaudeSpawner.isClaudeRunning targetProject (spawner st) in
  match activeSession, claudeActuallyRunning with
  | Some s, true =>
      (pushMessage (mkMessage from actualMessage (now env) false (Some (id s)))
                   st,
       [SentToActiveSession (projectName s)])
  | _, _ =>
      let st1 :=
        match activeSession with
        | Some s =>
            if negb claudeActuallyRunning
            then setSessions (mapDelete (id s) (activeSessions st)) st
            else st
        | None => st
        end in
      spawnOrQueue env from targetProject actualMessage st1
  end.

(** The handler from the routing pattern on. *)
Definition routeMessage (env : Env) (from message : string) (st : State)
  : State * list Reply :=
  match projectMatch message with
  | Some (targetProject, actualMessage) =>
      routeToProject env from targetProject actualMessage st
  | None =>
      match lastMessageSession st with
      | Some last =>
          match negb (String.eqb last ""), mapGet last (activeSessions st) with
          | true, Some s =>
              (pushMessage (mkMessage from message (now env) false (Some last))
                           st,
               [AutoRouted (projectName s) last])
          | _, _ =>
              (pushMessage (mkMessage from message (now env) false None) st,
               [MessageReceived])
          end
      | None =>
          (pushMessage (mkMessage from message (now env) false None) st,
           [MessageReceived])
      end
  end.

(** [bot.on('text')].  [Array.from(pendingQuestions.keys())[0]] is the first
    key of the map; with it the handler answers the question and returns. *)
Definition onText (env : Env) (from message : string) (st : State)
  : State * list Reply :=
  match pendingQuestions st with
  | (questionId, q) :: _ =>
      if negb (String.eqb questionId "") then
        (setQuestions
           (mapDelete questionId (pendingQuestions st))
           (settle (resolve q) (Answered message) (promises st))
           (delete (timeout q) (timers st))
           (nextTimer st) st,
         [AnswerReceived])
      else routeMessage env from message st
  | [] => routeMessage env from message st
  end.

(** *** Everything that can happen to the server *)

Inductive Event :=
| Text (env : Env) (from message : string)
| Register (now : Z) (sessionId projectName projectPath : string)
| Heartbeat (now : Z) (sessionId : string)
| Sweep (now : Z)
| Notify (now : Z) (message : string) (sessionId : option string)
| MessagesRead (count : option Z)
| Ask (now : Z) (question : string) (timeoutMs : option Z)
| TimerFires (timer : nat)
| Spawn (env : Env) (projectName : string) (initialPrompt : option string)
| Kill (projectName : string)
| ChildExit (projectName : string)
| ChildError (projectName : string)
| QueueAdd (now : Z) (rnd projectName : string) (projectPath : option string)
           (message from : string) (priority : QueueManager.Priority)
| MarkDelivered (projectName taskId : string)
| Start (chat : string)
| Toggle.

Definition step (e : Event) (st : State) : State :=
  match e with
  | Text env from message => fst (onText env from message st)
  | Register now sid pn pp => fst (register now sid pn pp st)
  | Heartbeat now sid => fst (heartbeat now sid st)
  | Sweep now => sweep now st
  | Notify now message sid => fst (notify now message sid st)
  | MessagesRead count => fst (messagesRead count st)
  | Ask now question timeoutMs => fst (ask now question timeoutMs st)
  | TimerFires timer => onTimeout timer st
  | Spawn env pn prompt =>
      setSpawner
        (fst (ClaudeSpawner.spawnClaude (findProject env) (os env) (now env)
                pn prompt
                (if truthy (chatId st)
                 then Some (ClaudeSpawner.TelegramSink pn) else None)
                (spawner st)))
        st
  | Kill pn => setSpawner (fst (ClaudeSpawner.killClaude pn (spawner st))) st
  | ChildExit pn => setSpawner (ClaudeSpawner.onExit pn (spawner st)) st
  | ChildError pn => setSpawner (ClaudeSpawner.onError pn (spawner st)) st
  | QueueAdd now rnd pn pp message from priority =>
      if String.eqb pn "" || String.eqb message "" || String.eqb from ""
      then st
      else
        setQueues
          (fst (QueueManager.enqueueTask now rnd pn
                  (if truthy pp then default "/unknown" pp else "/unknown")
                  message from priority now (queues st)))
          st
  | MarkDelivered pn taskId =>
      if String.eqb taskId "" then st
      else setQueues (QueueManager.markTaskDelivered pn taskId (queues st)) st
  | Start chat => setChatId (Some chat) st
  | Toggle => setEnabled (negb (ENABLED st)) st
  end.

(** The states the server can be in. *)
Inductive Reachable : State -> Prop :=
| reach_initial chat enabled : Reachable (initial chat enabled)
| reach_step e st : Reachable st -> Reachable (step e st).

(** [GET /spawned/:projectName]: whether a worker runs, and its row of the
    listing when one does. *)
Definition spawnedStatus (now : Z) (projectName : string) (st : State)
  : bool * option ClaudeSpawner.SpawnedRow :=
  if ClaudeSpawner.isClaudeRunning projectName (spawner st) then
    (true,
     List.find (fun p => String.eqb (ClaudeSpawner.rowName p) projectName)
               (ClaudeSpawner.listSpawnedProcesses now (spawner st)))
  else (false, None).

End Bridge.

(** * What the properties speak of *)

(** ** Outcomes of routing, and the invariants of the server *)

Module Outcomes.
Import ProjectRegistry Bridge.



(** The part of the state that belongs to the questions. *)
Definition questionsOf (st : State) :=
  (pendingQuestions st, promises st, timers st, nextTimer st).

(** Questions, timers and promises fit together: the keys of
    [pendingQuestions] are distinct and truthy; the timer of every entry is
    armed and is the one created with the entry; the promise of an armed
    timer is waiting; handles are fresh and no two armed timers reject the
    same promise. *)
Record QuestionsOk (st : State) : Prop := mkQuestionsOk {
  keys_distinct : NoDup (mapKeys (pendingQuestions st));
  keys_truthy : forall k q, In (k, q) (pendingQuestions st) -> k <> "";
  entry_timer : forall k q, In (k, q) (pendingQuestions st) ->
    exists ms, timers st !! timeout q = Some (mkTimer k (resolve q) ms);
  timer_waiting : forall h t, timers st !! h = Some t ->
    promises st !! reject t = Some Waiting;
  timer_fresh : forall h t, timers st !! h = Some t -> (h < nextTimer st)%nat;
  timer_promise : forall h h' t t',
    timers st !! h = Some t -> timers st !! h' = Some t' ->
    reject t = reject t' -> h = h'
}.

(** [activeSessions] is a map: its keys are distinct, and every session is
    stored under its own [id]. *)
Record SessionsOk (st : State) : Prop := mkSessionsOk {
  ids_distinct : NoDup (mapKeys (activeSessions st));
  ids_are_keys : forall k s, In (k, s) (activeSessions st) -> id s = k
}.

(** Every character of a string satisfies [p]. *)
Fixpoint allChars (p : ascii -> bool) (s : string) : bool :=
  match s with
  | EmptyString => true
  | String c s' => p c && allChars p s'
  end.

(** The characters a queue file name is made of, before its extension. *)
Definition isFileChar (c : ascii) : bool :=
  JsString.isLower c || JsString.isDigit c
  || Ascii.eqb c "-"%char || Ascii.eqb c "_"%char.

(** Lower-case letters, digits and dashes: the names that the sanitization
    and the listing of the queue directory both leave as they are. *)
Definition isPlainChar (c : ascii) : bool :=
  JsString.isLower c || JsString.isDigit c || Ascii.eqb c "-"%char.

(** The bookkeeping of the supervisor fits the children it started: every
    entry is stored under its own project name, its handle is that of a
    child started with the prompt of the entry as its only argument, and no
    two entries share a handle. *)
Record SpawnerOk (sp : ClaudeSpawner.Spawner) : Prop := mkSpawnerOk {
  entry_name : forall name e,
    ClaudeSpawner.activeProcesses sp !! name = Some e ->
    ClaudeSpawner.projectName e = name;
  entry_child : forall name e,
    ClaudeSpawner.activeProcesses sp !! name = Some e ->
    exists child,
      ClaudeSpawner.children sp !! ClaudeSpawner.process e = Some child
      /\ ClaudeSpawner.args child
         = ClaudeSpawner.promptArgs (ClaudeSpawner.initialPrompt e);
  entry_handle : forall name name' e e',
    ClaudeSpawner.activeProcesses sp !! name = Some e ->
    ClaudeSpawner.activeProcesses sp !! name' = Some e' ->
    ClaudeSpawner.process e = ClaudeSpawner.process e' -> name = name'
}.

(** The server after a sequence of events. *)
Fixpoint run (events : list Event) (st : State) : State :=
  match events with
  | [] => st
  | e :: rest => run rest (step e st)
  end.

(** [m'] is the message [m], possibly marked as read since. *)
Definition sameMessage (m m' : QueuedMessage) : Prop :=
  from m' = from m /\ message m' = message m /\ timestamp m' = timestamp m
  /\ sessionId m' = sessionId m /\ (read m = true -> read m' = true).

(** Every promise that is still waiting is the one an armed timer will
    reject. *)
Definition waitingHaveTimers (st : State) : Prop :=
  forall p, promises st !! p = Some Waiting ->
    exists h t, timers st !! h = Some t /\ reject t = p.

(** The four things the text handler can do with a message. *)





(** A payload that starts with a character that is not white space. *)
Definition startsTight (payload : string) : bool :=
  match payload with
  | String c _ => negb (JsString.isSpace c)
  | EmptyString => false
  end.

(** A string without white space at either end. *)
Definition isTight (s : string) : bool :=
  String.eqb (JsString.trimStart s) s && String.eqb (JsString.trimEnd s) s.

(** The value that the last line assigning [key] gives it. *)
Fixpoint lastAssignment (key : string) (lines : list string) : option string :=
  match lines with
  | [] => None
  | line :: rest =>
      match lastAssignment key rest with
      | Some v => Some v
      | None =>
          match ClaudeSpawner.envLine line with
          | Some (k, v) => if String.eqb k key then Some v else None
          | None => None
          end
      end
  end.

End Outcomes.

(** ** States and surroundings used as examples *)

Module Scenarios.
Import ProjectRegistry Bridge.

Definition demoRegistry (name : string) : option Project :=
  if String.eqb name "demo" then Some (mkProject "demo" "/tmp/demo" true)
  else None.

(** A worker has been started for [demo]. *)
Definition demoSpawner : ClaudeSpawner.Spawner :=
  fst (ClaudeSpawner.spawnClaude demoRegistry
         (ClaudeSpawner.Launched (Some 4242)) 1000 "demo" (Some "build it")
         None ClaudeSpawner.noProcesses).

Definition demoSession : ClaudeSession :=
  mkSession "s-1" "Foo" "/work/foo" 1000 1000 idle.

Definition demoState : State :=
  setSessions [("s-1", demoSession)] (initial (Some "77") true).

(** Two sessions registered at instant 0; only [new] was heard of since. *)
Definition twoSessions : State :=
  step (Heartbeat 1000000 "new")
    (step (Register 0 "new" "Bar" "/work/bar")
       (step (Register 0 "old" "Foo" "/work/foo") (initial None true))).

Definition inbox3 : State :=
  setMessageQueue
    [mkMessage "bob" "one" 1 false None;
     mkMessage "bob" "two" 2 true None;
     mkMessage "bob" "three" 3 false (Some "s-1");
     mkMessage "bob" "four" 4 false None]
    (initial None true).




Definition quietEnv : Env :=
  mkEnv 2000 "k3j9x1abc" (fun _ => None) (ClaudeSpawner.Launched (Some 4242)).

(** One question has been asked and is waiting. *)
Definition askedState : State :=
  step (Ask 5 "Deploy?" (Some 50)) (initial (Some "77") true).

Definition betaRegistry (name : string) : option Project :=
  if String.eqb name "Beta" then Some (mkProject "Beta" "/work/beta" false)
  else None.

Definition betaEnv : Env :=
  mkEnv 2000 "k3j9x1abc" betaRegistry (ClaudeSpawner.Launched (Some 4242)).

(** Two sessions are registered, a worker runs for [Beta]. *)
Definition twoWorkers : State :=
  step (Spawn betaEnv "Beta" None)
    (step (Register 1000 "b" "Beta" "/work/beta")
       (step (Register 1000 "a" "Alpha" "/work/alpha")
          (initial (Some "77") true))).

(** A worker is started for [Beta] and killed, a second one is started
    before the first is gone, and then the first one exits. *)
Definition lateExit : list Children.Action :=
  [Children.CallSpawn betaRegistry (ClaudeSpawner.Launched (Some 4242)) 1000
     "Beta" None None;
   Children.CallKill "Beta";
   Children.CallSpawn betaRegistry (ClaudeSpawner.Launched (Some 4243)) 2000
     "Beta" None None;
   Children.ExitOf 0].

Definition thirdSpawn : Children.Action :=
  Children.CallSpawn betaRegistry (ClaudeSpawner.Launched (Some 4244)) 3000
    "Beta" None None.

End Scenarios.

(** * Properties *)

(** ** The task queue *)

Module QueueFacts.
Import JsString QueueManager.

Lemma filter_all_kept {A} (f : A -> bool) (l : list A) :
  length (List.filter f l) = length l -> List.filter f l = l.
Proof.
  induction l as [|a l IH]; simpl; [reflexivity|].
  destruct (f a); simpl; intros Hlen.
  - f_equal. apply IH. lia.
  - pose proof (List.filter_length_le f l). lia.
Qed.

Lemma filter_split_length {A} (f : A -> bool) (l : list A) :
  (length l - length (List.filter f l))%nat
  = length (List.filter (fun a => negb (f a)) l).
Proof.
  induction l as [|a l IH]; simpl; [reflexivity|].
  pose proof (List.filter_length_le f l).
  destruct (f a); simpl; lia.
Qed.

Lemma loadQueue_saveQueue name tasks fs :
  loadQueue name (saveQueue name tasks fs) = tasks.
Proof. unfold loadQueue, saveQueue. by rewrite lookup_insert_eq. Qed.

Lemma keepTask_spec cutoff t :
  keepTask cutoff t = false <-> status t = delivered /\ timestamp t < cutoff.
Proof.
  unfold keepTask.
  destruct (status t); simpl; try (split; [discriminate|intros [? _]; discriminate]).
  destruct (Z.ltb_spec (timestamp t) cutoff); split; try done; try lia.
Qed.

(** What [cleanupOldTasks] leaves in the queue it was called for. *)
Lemma cleanup_queue setDateBack now name days fs :
  loadQueue name (fst (cleanupOldTasks setDateBack now name days fs))
  = List.filter
      (keepTask (setDateBack now (match days with Some d => d | None => 7 end)))
      (loadQueue name fs).
Proof.
  unfold cleanupOldTasks; simpl.
  set (cutoff := setDateBack now _).
  destruct (Nat.ltb_spec 0
    (length (loadQueue name fs)
     - length (List.filter (keepTask cutoff) (loadQueue name fs))))
    as [Hpos|Hzero].
  - apply loadQueue_saveQueue.
  - symmetry. apply filter_all_kept.
    pose proof (List.filter_length_le (keepTask cutoff) (loadQueue name fs)).
    lia.
Qed.

(** C8. [cleanupOldTasks] removes from the project's queue exactly the tasks
    whose status is [delivered] and whose timestamp is before the cutoff,
    the instant [days] days (7 when not given) before [now]; it keeps the
    others in their order, returns the number of tasks removed, never
    removes a [pending] or [expired] task whatever its age, and touches no
    other queue file. *)
Theorem cleanup_removes_old_delivered
    (setDateBack : Z -> Z -> Z) (now : Z) (name : string) (days : option Z)
    (fs : QueueDir) :
  let cutoff := setDateBack now (match days with Some d => d | None => 7 end) in
  let old t := Status_eqb (status t) delivered && (timestamp t <? cutoff) in
  let fs' := fst (cleanupOldTasks setDateBack now name days fs) in
  let removed := snd (cleanupOldTasks setDateBack now name days fs) in
  loadQueue name fs' = List.filter (fun t => negb (old t)) (loadQueue name fs)
  /\ (forall t, In t (loadQueue name fs') <->
                In t (loadQueue name fs)
                /\ ~ (status t = delivered /\ timestamp t < cutoff))
  /\ removed = length (List.filter old (loadQueue name fs))
  /\ (forall t, In t (loadQueue name fs) -> status t <> delivered ->
                In t (loadQueue name fs'))
  /\ (forall file, file <> getQueuePath name -> fs' !! file = fs !! file).
Proof.
  intros cutoff old fs' removed.
  assert (Hkeep : forall t, keepTask cutoff t = negb (old t)).
  { intros t. unfold keepTask, old. by destruct (_ && _). }
  assert (Hq : loadQueue name fs'
               = List.filter (fun t => negb (old t)) (loadQueue name fs)).
  { unfold fs'. rewrite cleanup_queue. apply List.filter_ext. exact Hkeep. }
  assert (Hin : forall t, In t (loadQueue name fs') <->
                In t (loadQueue name fs)
                /\ ~ (status t = delivered /\ timestamp t < cutoff)).
  { intros t. rewrite Hq, List.filter_In, <- Hkeep.
    pose proof (keepTask_spec cutoff t) as Hspec.
    destruct (keepTask cutoff t); intuition congruence. }
  split; [exact Hq|]. split; [exact Hin|]. split; [|split].
  - unfold removed, cleanupOldTasks; simpl.
    rewrite filter_split_length. f_equal. apply List.filter_ext.
    intros t. fold cutoff. rewrite Hkeep. apply negb_involutive.
  - intros t Ht Hst. apply Hin. split; [exact Ht|]. intros [? _]. contradiction.
  - intros file Hfile. unfold fs', cleanupOldTasks; simpl.
    destruct (_ <? _)%nat; [|reflexivity].
    unfold saveQueue. by rewrite lookup_insert_ne.
Qed.

(** The round trip of the spec: a task that was queued, then acknowledged,
    is removed by a cleanup whose cutoff is later than its timestamp; the
    same task left pending survives it. *)
Example cleanup_round_trip :
  let utc now days := now - days * 86400000 in
  let fs1 := fst (enqueueTask 1000 "k3j9x1abc" "demo" "/tmp/demo" "hello" "bob"
                              normal 1000 ∅) in
  let fs2 := markTaskDelivered "demo" "1000-k3j9x1abc" fs1 in
  cleanupOldTasks utc 2000 "demo" (Some 0) fs2
  = (<["demo.json" := []]> fs2, 1%nat)
  /\ cleanupOldTasks utc 2000 "demo" (Some 0) fs1 = (fs1, 0%nat)
  /\ cleanupOldTasks utc 2000 "demo" None fs2 = (fs2, 0%nat).
Proof. repeat split; reflexivity. Qed.

(** C5. A project is queued under the name [my_app]: its queue holds one
    pending task, yet [getQueueSummary] has no entry at all.  The file
    [my_app.json] is listed as project [my-app], whose queue is looked up in
    [my-app.json], which does not exist; the empty result is then filtered
    out.  The same happens to [My App], stored in [my_app.json] too. *)
Theorem summary_misses_folded_names :
  let fs := fst (enqueueTask 1000 "k3j9x1abc" "my_app" "/unknown" "hello"
                             "bob" normal 1000 ∅) in
  let fs' := fst (enqueueTask 1000 "k3j9x1abc" "My App" "/unknown" "hello"
                              "bob" normal 1000 ∅) in
  length (getPendingTasks "my_app" fs) = 1%nat
  /\ listProjectsWithQueues fs = ["my-app"]
  /\ getQueueSummary fs = []
  /\ length (getPendingTasks "My App" fs') = 1%nat
  /\ getQueueSummary fs' = [].
Proof. vm_compute. repeat split; reflexivity. Qed.

(** A name made of lower-case letters, digits and dashes is summarised. *)
Example summary_plain_name :
  getQueueSummary
    (fst (enqueueTask 1000 "k3j9x1abc" "my-app" "/unknown" "hello" "bob"
                      normal 1000 ∅))
  = [mkSummary "my-app" 1 1].
Proof. reflexivity. Qed.

End QueueFacts.

(** ** The process supervisor *)

Module SpawnerFacts.
Import ProjectRegistry ClaudeSpawner Scenarios.

Lemma isClaudeRunning_true name sp :
  isClaudeRunning name sp = true <-> is_Some (activeProcesses sp !! name).
Proof.
  unfold isClaudeRunning. destruct (activeProcesses sp !! name) eqn:E.
  - split; eauto.
  - split; [discriminate|]. intros [? ?]; discriminate.
Qed.

(** A call that succeeds leaves an entry for the name behind. *)
Lemma spawn_success_running find os now name prompt sink sp :
  success (snd (spawnClaude find os now name prompt sink sp)) = true ->
  isClaudeRunning name (fst (spawnClaude find os now name prompt sink sp))
  = true.
Proof.
  unfold spawnClaude.
  destruct (isClaudeRunning name sp) eqn:Hrun; simpl; [discriminate|].
  destruct (find name); simpl; [|discriminate].
  destruct os; simpl; [|discriminate].
  intros _. unfold isClaudeRunning; simpl. by rewrite lookup_insert_eq.
Qed.


(** The guard of [spawnClaude].  While [activeProcesses] holds an entry
    for a name, [spawnClaude] for
    that name answers [success: false], whatever its other arguments and
    whatever the registry and the operating system would have done: no child
    process is started, the entry is the one that was there, the whole state
    is unchanged and [isClaudeRunning] is true before and after.  This is
    the situation after a successful [spawnClaude] for the name
    ([spawn_success_running]), so a second call in a row fails. *)
Theorem second_spawn_rejected
    (find' : string -> option Project) (os' : SpawnOutcome)
    (now' : Z) (name : string) (prompt' : option string)
    (sink' : option OutputSink) (sp : Spawner) (entry : SpawnedProcess) :
  activeProcesses sp !! name = Some entry ->
  let again := spawnClaude find' os' now' name prompt' sink' sp in
  isClaudeRunning name sp = true
  /\ success (snd again) = false
  /\ message (snd again) = AlreadyRunning name
  /\ pid (snd again) = None
  /\ fst again = sp
  /\ children (fst again) = children sp
  /\ activeProcesses (fst again) !! name = Some entry
  /\ isClaudeRunning name (fst again) = true.
Proof.
  intros Hentry again.
  assert (Hrun : isClaudeRunning name sp = true).
  { apply isClaudeRunning_true. eauto. }
  unfold again, spawnClaude. rewrite Hrun. simpl.
  repeat split; auto.
Qed.

(** After a first successful call, the second one is rejected. *)
Lemma spawn_twice_in_a_row find find' os os' now now' name prompt prompt'
    sink sink' sp :
  let first := spawnClaude find os now name prompt sink sp in
  let second := spawnClaude find' os' now' name prompt' sink' (fst first) in
  success (snd first) = true ->
  success (snd second) = false /\ fst second = fst first
  /\ isClaudeRunning name (fst second) = true.
Proof.
  intros first second Hok.
  pose proof (spawn_success_running _ _ _ _ _ _ _ Hok) as Hrun.
  fold first in Hrun. unfold second, spawnClaude. rewrite Hrun. simpl.
  auto.
Qed.

Lemma second_spawn_rejected_witness :
  let again := spawnClaude demoRegistry (Launched (Some 4243)) 2000 "demo"
                 (Some "again") None demoSpawner in
  success (snd again) = false /\ fst again = demoSpawner
  /\ length (children (fst again)) = 1%nat.
Proof.
  pose proof (second_spawn_rejected demoRegistry
                (Launched (Some 4243)) 2000
                "demo" (Some "again") None demoSpawner
                (mkSpawned "demo" 0 1000 (Some "build it") None)
                eq_refl) as H.
  simpl in H. destruct H as (_ & H1 & _ & _ & H2 & H3 & _).
  split; [exact H1|]. split; [exact H2|]. rewrite H3. reflexivity.
Defined.

End SpawnerFacts.

(** ** Entries and live processes *)

Module ChildrenFacts.
Import ProjectRegistry ClaudeSpawner Children Scenarios.

Lemma perform_app (t1 t2 : list Action) (s : Supervised) :
  perform (t1 ++ t2) s = perform t2 (perform t1 s).
Proof. unfold perform. apply fold_left_app. Qed.

(** [lives] follows [children]: one element for each child started. *)
Lemma lives_children (trace : list Action) :
  length (lives (perform trace nothingStarted))
  = length (children (table (perform trace nothingStarted))).
Proof.
  induction trace as [|a trace IH] using rev_ind; [reflexivity|].
  rewrite perform_app. simpl.
  set (s := perform trace nothingStarted) in *.
  destruct a as [find os now name prompt sink|name|child|child]; simpl.
  - unfold spawnClaude. destruct (isClaudeRunning name (table s)); simpl;
      [exact IH|].
    destruct (find name); simpl; [|exact IH].
    destruct os; simpl; [|exact IH].
    rewrite !length_app. simpl. by rewrite IH.
  - unfold killClaude, signal.
    destruct (activeProcesses (table s) !! name) as [e|]; simpl; [|exact IH].
    destruct (lives s !! process e) as [[n []]|]; simpl;
      rewrite ?length_insert; exact IH.
  - destruct (lives s !! child) as [[n []]|]; simpl;
      rewrite ?length_insert; exact IH.
  - destruct (lives s !! child) as [[n []]|]; simpl;
      rewrite ?length_insert; exact IH.
Qed.

(** The ['exit'] listener of a child deletes the entry of its name,
    whichever child that entry belongs to. *)
Lemma exit_deletes_by_name (child : nat) (name : string) (s : Supervised) :
  lives s !! child = Some (name, Signalled) ->
  isClaudeRunning name (table (act (ExitOf child) s)) = false.
Proof.
  intros Hlife. simpl. rewrite Hlife. simpl.
  unfold isClaudeRunning. simpl. by rewrite lookup_delete_eq.
Qed.

(** C2. The guard of [spawnClaude] does not keep the workers of a project
    down to one.  A worker is started for [Beta] and killed; a second one
    is started before the first is gone; the first one exits.  Its
    ['exit'] listener deletes the entry of [Beta], which is that of the
    second worker: [isClaudeRunning] is false while the second worker
    runs, a third [spawnClaude] succeeds, and two workers of [Beta] run,
    neither of which was sent a signal.  [killClaude] reaches the third
    only. *)
Theorem late_exit_admits_second_worker :
  let s := perform lateExit nothingStarted in
  let third := spawnClaude betaRegistry (Launched (Some 4244)) 3000 "Beta"
                 None None (table s) in
  let s' := act thirdSpawn s in
  runningFor "Beta" s = [1%nat]
  /\ isClaudeRunning "Beta" (table s) = false
  /\ success (snd third) = true
  /\ pid (snd third) = Some 4244
  /\ table s' = fst third
  /\ activeProcesses (table s') !! "Beta"
     = Some (mkSpawned "Beta" 2 3000 None None)
  /\ runningFor "Beta" s' = [1%nat; 2%nat]
  /\ ~ (length (runningFor "Beta" s') <= 1)%nat
  /\ runningFor "Beta" (act (CallKill "Beta") s') = [1%nat]
  /\ isClaudeRunning "Beta" (table (act (CallKill "Beta") s')) = false.
Proof.
  cbv zeta.
  assert (Hs : runningFor "Beta" (act thirdSpawn (perform lateExit nothingStarted))
               = [1%nat; 2%nat]) by (vm_compute; reflexivity).
  repeat split; try (vm_compute; reflexivity).
  rewrite Hs. simpl. lia.
Qed.

End ChildrenFacts.

(** ** Maps in insertion order *)

Module MapFacts.
Import Bridge.

Section Facts.
Context {V : Type}.
Implicit Types (m : list (string * V)) (k : string) (v : V).

Lemma mapGet_mapSet_eq k v m : mapGet k (mapSet k v m) = Some v.
Proof.
  induction m as [|[k' v'] m IH]; simpl.
  - by rewrite String.eqb_refl.
  - destruct (String.eqb k' k) eqn:E; simpl.
    + by rewrite String.eqb_refl.
    + by rewrite E.
Qed.

Lemma mapGet_mapSet_ne k k' v m :
  k <> k' -> mapGet k' (mapSet k v m) = mapGet k' m.
Proof.
  intros Hne. induction m as [|[k0 v0] m IH]; simpl.
  - apply String.eqb_neq in Hne. by rewrite Hne.
  - destruct (String.eqb k0 k) eqn:E; simpl.
    + apply String.eqb_eq in E; subst k0.
      apply String.eqb_neq in Hne. by rewrite Hne.
    + by rewrite IH.
Qed.

Lemma mapGet_mapDelete_eq k m : mapGet k (mapDelete k m) = None.
Proof.
  induction m as [|[k' v'] m IH]; simpl; [reflexivity|].
  destruct (String.eqb k' k) eqn:E; simpl; [exact IH|]. by rewrite E.
Qed.


Lemma mapGet_In k v m : mapGet k m = Some v -> In (k, v) m.
Proof.
  induction m as [|[k' v'] m IH]; simpl; [discriminate|].
  destruct (String.eqb k' k) eqn:E.
  - apply String.eqb_eq in E. intros [= ->]. left. by subst.
  - intros H. right. by apply IH.
Qed.

Lemma mapGet_None_keys k m : mapGet k m = None <-> ~ In k (mapKeys m).
Proof.
  induction m as [|[k' v'] m IH]; simpl; [tauto|].
  destruct (String.eqb k' k) eqn:E.
  - apply String.eqb_eq in E. split; [discriminate|]. intros H. tauto.
  - apply String.eqb_neq in E. rewrite IH. tauto.
Qed.

Lemma In_mapGet k v m : NoDup (mapKeys m) -> In (k, v) m -> mapGet k m = Some v.
Proof.
  induction m as [|[k' v'] m IH]; simpl; [tauto|].
  intros Hnd [Heq|Hin].
  - injection Heq as -> ->. by rewrite String.eqb_refl.
  - apply NoDup_cons in Hnd as [Hnotin Hnd].
    destruct (String.eqb k' k) eqn:E.
    + apply String.eqb_eq in E; subst k'. exfalso. apply Hnotin.
      apply list_elem_of_In. apply (List.in_map fst) in Hin. exact Hin.
    + by apply IH.
Qed.

(** Setting a key that is present keeps every key in its place. *)
Lemma mapKeys_mapSet_present k v m :
  In k (mapKeys m) -> mapKeys (mapSet k v m) = mapKeys m.
Proof.
  induction m as [|[k' v'] m IH]; simpl; [tauto|].
  destruct (String.eqb k' k) eqn:E; simpl.
  - apply String.eqb_eq in E. by subst.
  - apply String.eqb_neq in E. intros [?|Hin]; [done|]. by rewrite IH.
Qed.

(** Setting a key that is absent appends it. *)
Lemma mapSet_absent k v m : mapGet k m = None -> mapSet k v m = m ++ [(k, v)].
Proof.
  induction m as [|[k' v'] m IH]; simpl; [reflexivity|].
  destruct (String.eqb k' k); [discriminate|]. intros H. by rewrite IH.
Qed.

Lemma mapKeys_mapDelete k m :
  mapKeys (mapDelete k m)
  = List.filter (fun k' => negb (String.eqb k' k)) (mapKeys m).
Proof.
  induction m as [|[k' v'] m IH]; simpl; [reflexivity|].
  destruct (String.eqb k' k); simpl; by rewrite IH.
Qed.

Lemma NoDup_filter_keys (f : string -> bool) (l : list string) :
  NoDup l -> NoDup (List.filter f l).
Proof.
  induction 1 as [|a l Hnotin Hnd IH]; simpl; [constructor|].
  destruct (f a); [|exact IH].
  constructor; [|exact IH].
  rewrite list_elem_of_In, List.filter_In, <- list_elem_of_In. tauto.
Qed.

Lemma NoDup_mapDelete k m : NoDup (mapKeys m) -> NoDup (mapKeys (mapDelete k m)).
Proof. rewrite mapKeys_mapDelete. apply NoDup_filter_keys. Qed.

Lemma NoDup_mapSet k v m : NoDup (mapKeys m) -> NoDup (mapKeys (mapSet k v m)).
Proof.
  intros Hnd. destruct (mapGet k m) eqn:E.
  - rewrite mapKeys_mapSet_present; [exact Hnd|].
    apply mapGet_In in E. apply (List.in_map fst) in E. exact E.
  - rewrite (mapSet_absent _ _ _ E). unfold mapKeys. rewrite List.map_app.
    simpl. apply NoDup_app. split; [exact Hnd|]. split.
    + intros x Hx Hx'. apply list_elem_of_In in Hx'. destruct Hx' as [<-|[]].
      apply mapGet_None_keys in E. apply E. by apply list_elem_of_In.
    + apply NoDup_singleton.
Qed.

End Facts.
End MapFacts.

(** ** The session registry *)

Module SessionFacts.
Import Bridge MapFacts Scenarios.

Lemma setSessions_twice a b st :
  setSessions a (setSessions b st) = setSessions a st.
Proof. reflexivity. Qed.

Lemma mapSet_twice {V} k (v v' : V) m :
  mapSet k v (mapSet k v' m) = mapSet k v m.
Proof.
  induction m as [|[k0 v0] m IH]; simpl.
  - by rewrite String.eqb_refl.
  - destruct (String.eqb k0 k) eqn:E; simpl.
    + by rewrite String.eqb_refl.
    + by rewrite E, IH.
Qed.

Lemma eqb_empty_false s : s <> "" -> String.eqb s "" = false.
Proof. intros H. by apply String.eqb_neq. Qed.

(** C9. A registration with its three fields present always succeeds.  If
    [sessionId] is already registered, its session keeps [id],
    [projectName], [projectPath] and [startTime], whatever project the call
    names, has [lastActivity] set to [now] and [status] to [active], and
    stays where it was in the map; otherwise a session
    [{sessionId, projectName, projectPath, now, now, active}] is added at
    the end.  Every other session and the rest of the state are untouched,
    and registering once more at the same instant, for whatever project,
    changes nothing. *)
Theorem register_idempotent
    (now : Z) (sessionId projectName projectPath : string) (st : State) :
  sessionId <> "" -> projectName <> "" -> projectPath <> "" ->
  let st' := fst (register now sessionId projectName projectPath st) in
  snd (register now sessionId projectName projectPath st)
  = ok (sessionId, projectName)
  /\ mapGet sessionId (activeSessions st')
     = Some (match mapGet sessionId (activeSessions st) with
             | Some existing =>
                 mkSession (id existing) (Bridge.projectName existing)
                           (Bridge.projectPath existing) (startTime existing)
                           now active
             | None =>
                 mkSession sessionId projectName projectPath now now active
             end)
  /\ mapKeys (activeSessions st')
     = match mapGet sessionId (activeSessions st) with
       | Some _ => mapKeys (activeSessions st)
       | None => mapKeys (activeSessions st) ++ [sessionId]
       end
  /\ (forall other, other <> sessionId ->
        mapGet other (activeSessions st') = mapGet other (activeSessions st))
  /\ st' = setSessions (activeSessions st') st
  /\ (forall name' path', name' <> "" -> path' <> "" ->
        fst (register now sessionId name' path' st') = st').
Proof.
  intros Hid Hname Hpath st'.
  assert (Hreg : register now sessionId projectName projectPath st
    = (setSessions
         (mapSet sessionId
            (match mapGet sessionId (activeSessions st) with
             | Some existing => refresh now existing
             | None => mkSession sessionId projectName projectPath now now active
             end) (activeSessions st)) st,
       ok (sessionId, projectName))).
  { unfold register. rewrite !eqb_empty_false by assumption. simpl.
    by destruct (mapGet sessionId (activeSessions st)). }
  unfold st'. rewrite Hreg. simpl.
  split; [reflexivity|]. split; [|split; [|split; [|split]]].
  - rewrite mapGet_mapSet_eq. by destruct (mapGet sessionId (activeSessions st)).
  - destruct (mapGet sessionId (activeSessions st)) eqn:E.
    + apply mapKeys_mapSet_present.
      apply mapGet_In in E. apply (List.in_map fst) in E. exact E.
    + rewrite (mapSet_absent _ _ _ E). unfold mapKeys.
      by rewrite List.map_app.
  - intros other Hother. apply mapGet_mapSet_ne. congruence.
  - reflexivity.
  - intros name' path' Hname' Hpath'. unfold register.
    rewrite !eqb_empty_false by assumption. simpl.
    rewrite mapGet_mapSet_eq, setSessions_twice, mapSet_twice.
    by destruct (mapGet sessionId (activeSessions st)).
Qed.

Lemma register_idempotent_witness :
  mapGet "s-1"
    (activeSessions (fst (register 5000 "s-1" "Bar" "/work/bar" demoState)))
  = Some (mkSession "s-1" "Foo" "/work/foo" 1000 5000 active)
  /\ mapGet "s-2"
       (activeSessions (fst (register 5000 "s-2" "Bar" "/work/bar" demoState)))
     = Some (mkSession "s-2" "Bar" "/work/bar" 5000 5000 active).
Proof.
  split.
  - apply (register_idempotent 5000 "s-1" "Bar" "/work/bar" demoState);
      discriminate.
  - apply (register_idempotent 5000 "s-2" "Bar" "/work/bar" demoState);
      discriminate.
Defined.

(** *** Expiry *)

(** Deleting, one after the other, the keys of the entries of [todo] that
    satisfy [p]. *)
Lemma fold_delete_filter {V} (p : V -> bool) (todo m : list (string * V)) :
  fold_left (fun m e => if p (snd e) then mapDelete (fst e) m else m) todo m
  = List.filter
      (fun e => negb (existsb (fun d => p (snd d) && String.eqb (fst e) (fst d))
                              todo)) m.
Proof.
  revert m. induction todo as [|d todo IH]; intros m; simpl.
  - induction m as [|e m IHm]; simpl; [reflexivity|]. by rewrite <- IHm.
  - rewrite IH. destruct (p (snd d)); simpl; [|reflexivity].
    unfold mapDelete. induction m as [|e m IHm]; simpl; [reflexivity|].
    destruct (String.eqb (fst e) (fst d)); simpl; rewrite IHm; reflexivity.
Qed.

Lemma sweep_filter now (m : list (string * ClaudeSession)) :
  NoDup (mapKeys m) ->
  sweepSessions now m
  = List.filter (fun e => negb (expired now (snd e))) m.
Proof.
  intros Hnd. unfold sweepSessions. rewrite fold_delete_filter.
  apply List.filter_ext_in. intros [k s] Hin. simpl. f_equal.
  destruct (expired now s) eqn:Hexp.
  - apply existsb_exists. exists (k, s). simpl.
    by rewrite Hexp, String.eqb_refl.
  - apply not_true_is_false. intros Hex.
    apply existsb_exists in Hex as [[k' s'] [Hin' Hd]]. simpl in Hd.
    apply andb_true_iff in Hd as [Hexp' Hk].
    apply String.eqb_eq in Hk; subst k'.
    apply (In_mapGet _ _ _ Hnd) in Hin. apply (In_mapGet _ _ _ Hnd) in Hin'.
    congruence.
Qed.

Lemma expired_spec now s :
  expired now s = true <-> SESSION_TIMEOUT < now - lastActivity s.
Proof. unfold expired. apply Z.ltb_lt. Qed.

(** C7. After a sweep at instant [now], [listSessions] shows exactly the
    sessions it showed before whose idle time [now - lastActivity] does not
    exceed 30 minutes, each with the record it had; a session idle for
    longer is gone.  Before the sweep every registered session is listed,
    expired or not. *)
Theorem sweep_removes_expired (now t : Z) (st : State) :
  NoDup (mapKeys (activeSessions st)) ->
  SESSION_TIMEOUT = 1800000
  /\ (forall v, In v (listSessions t (sweep now st)) <->
                In v (listSessions t st)
                /\ now - lastActivity (session v) <= SESSION_TIMEOUT)
  /\ (forall k s, In (k, s) (activeSessions st) ->
        In (mkView s ((t - lastActivity s) / 60000)) (listSessions t st))
  /\ (forall k s, In (k, s) (activeSessions st) ->
        SESSION_TIMEOUT < now - lastActivity s ->
        mapGet k (activeSessions (sweep now st)) = None)
  /\ (forall k s, In (k, s) (activeSessions st) ->
        now - lastActivity s <= SESSION_TIMEOUT ->
        mapGet k (activeSessions (sweep now st)) = Some s).
Proof.
  intros Hnd. split; [reflexivity|].
  assert (Hsw : activeSessions (sweep now st)
                = List.filter (fun e => negb (expired now (snd e)))
                              (activeSessions st)).
  { unfold sweep; simpl. by apply sweep_filter. }
  assert (Hnd' : NoDup (mapKeys (activeSessions (sweep now st)))).
  { rewrite Hsw. clear Hsw. induction (activeSessions st) as [|[k s] m IH];
      simpl; [constructor|].
    apply NoDup_cons in Hnd as [Hk Hnd]. destruct (expired now s); simpl; auto.
    constructor; auto. intros Hin. apply Hk.
    apply list_elem_of_In in Hin. apply list_elem_of_In.
    apply List.in_map_iff in Hin as [e [He Hin]].
    apply List.filter_In in Hin as [Hin _].
    apply List.in_map_iff. eauto. }
  split; [|split; [|split]].
  - intros v. unfold listSessions, mapValues. rewrite Hsw.
    rewrite !List.in_map_iff. split.
    + intros [s [<- Hs]]. apply List.in_map_iff in Hs as [e [<- He]].
      apply List.filter_In in He as [He Hexp]. simpl. split.
      * exists (snd e). split; [reflexivity|]. apply List.in_map. exact He.
      * apply negb_true_iff in Hexp. unfold expired in Hexp.
        apply Z.ltb_ge in Hexp. exact Hexp.
    + intros [[s [<- Hs]] Hidle]. simpl in Hidle.
      exists s. split; [reflexivity|].
      apply List.in_map_iff in Hs as [e [<- He]].
      apply List.in_map. apply List.filter_In. split; [exact He|].
      apply negb_true_iff. unfold expired. by apply Z.ltb_ge.
  - intros k s Hin. unfold listSessions, mapValues.
    apply List.in_map_iff. exists s. split; [reflexivity|].
    apply (List.in_map snd) in Hin. exact Hin.
  - intros k s Hin Hidle.
    apply mapGet_None_keys. rewrite Hsw. intros Hk.
    apply List.in_map_iff in Hk as [[k' s'] [Hk' Hin']]. simpl in Hk'; subst k'.
    apply List.filter_In in Hin' as [Hin' Hexp]. simpl in Hexp.
    assert (s' = s).
    { apply (In_mapGet _ _ _ Hnd) in Hin. apply (In_mapGet _ _ _ Hnd) in Hin'.
      congruence. }
    subst s'. apply negb_true_iff in Hexp. unfold expired in Hexp.
    apply Z.ltb_ge in Hexp. lia.
  - intros k s Hin Hidle. apply In_mapGet; [exact Hnd'|].
    rewrite Hsw. apply List.filter_In. split; [exact Hin|]. simpl.
    apply negb_true_iff. unfold expired. by apply Z.ltb_ge.
Qed.

Lemma sweep_removes_expired_witness :
  mapGet "old" (activeSessions (sweep 1800001 twoSessions)) = None
  /\ mapGet "new" (activeSessions (sweep 1800001 twoSessions))
     = Some (mkSession "new" "Bar" "/work/bar" 0 1000000 active)
  /\ In (mkView (mkSession "old" "Foo" "/work/foo" 0 0 active) 30)
        (listSessions 1800001 twoSessions).
Proof.
  assert (Hnd : NoDup (mapKeys (activeSessions twoSessions))).
  { simpl. apply NoDup_cons. split; [|apply NoDup_singleton].
    intros H%list_elem_of_In. destruct H as [H|[]]. discriminate. }
  destruct (sweep_removes_expired 1800001 1800001 twoSessions Hnd)
    as (_ & _ & Hbefore & Hgone & Hkept).
  split; [|split].
  - apply (Hgone "old" (mkSession "old" "Foo" "/work/foo" 0 0 active)).
    + simpl; auto.
    + simpl. unfold SESSION_TIMEOUT. lia.
  - apply (Hkept "new"); [simpl; auto|]. simpl. unfold SESSION_TIMEOUT. lia.
  - exact (Hbefore "old" (mkSession "old" "Foo" "/work/foo" 0 0 active)
                   (or_introl eq_refl)).
Defined.

End SessionFacts.

(** ** The generic inbox *)

Module InboxFacts.
Import Bridge Scenarios.

Lemma unreadCount_cons m queue :
  unreadCount (m :: queue)
  = (if read m then 0 else 1) + unreadCount queue.
Proof.
  unfold unreadCount. simpl. destruct (read m); simpl; lia.
Qed.

Lemma unreadCount_nonneg queue : 0 <= unreadCount queue.
Proof. unfold unreadCount. lia. Qed.

(** The loop, for any value of its counter on entry. *)
Lemma markLoop_spec toMark queue : forall marked,
  let queue' := fst (markLoop toMark marked queue) in
  let n := snd (markLoop toMark marked queue) in
  length queue' = length queue
  /\ n = marked + Z.max 0 (Z.min (toMark - marked) (unreadCount queue))
  /\ unreadCount queue' = unreadCount queue - (n - marked)
  /\ forall i m, queue !! i = Some m ->
       queue' !! i
       = Some (if negb (read m)
                  && (marked + unreadCount (take i queue) <? toMark)
               then markRead m else m).
Proof.
  induction queue as [|msg rest IH]; intros marked; simpl.
  - split; [reflexivity|]. split; [unfold unreadCount; simpl; lia|].
    split; [lia|]. intros i m H. destruct i; discriminate.
  - pose proof (unreadCount_nonneg rest) as Hrest.
    destruct (read msg) eqn:Hread; simpl.
    + specialize (IH marked).
      destruct (markLoop toMark marked rest) as [rest' n'] eqn:E.
      simpl in *. destruct IH as (Hlen & Hn & Hun & Hat).
      rewrite !unreadCount_cons, Hread.
      split; [lia|]. split; [lia|]. split; [lia|].
      intros [|i] m H; simpl in *.
      * injection H as <-. by rewrite Hread.
      * rewrite unreadCount_cons, Hread. by apply Hat.
    + destruct (Z.ltb_spec marked toMark) as [Hlt|Hge].
      * specialize (IH (marked + 1)).
        destruct (markLoop toMark (marked + 1) rest) as [rest' n'] eqn:E.
        simpl in *. destruct IH as (Hlen & Hn & Hun & Hat).
        rewrite !unreadCount_cons, Hread. simpl.
        split; [lia|]. split; [lia|]. split; [lia|].
        intros [|i] m H; simpl in *.
        -- injection H as <-. rewrite Hread. simpl.
           replace (marked + unreadCount [] <? toMark) with true; [done|].
           symmetry. apply Z.ltb_lt. unfold unreadCount. simpl. lia.
        -- rewrite unreadCount_cons, Hread.
           rewrite (Hat i m H). by rewrite Z.add_assoc.
      * specialize (IH marked).
        destruct (markLoop toMark marked rest) as [rest' n'] eqn:E.
        simpl in *. destruct IH as (Hlen & Hn & Hun & Hat).
        rewrite !unreadCount_cons, Hread.
        split; [lia|]. split; [lia|]. split; [lia|].
        intros [|i] m H; simpl in *.
        -- injection H as <-. rewrite Hread. simpl.
           replace (marked + unreadCount [] <? toMark) with false; [done|].
           symmetry. apply Z.ltb_ge. unfold unreadCount. simpl. lia.
        -- rewrite unreadCount_cons, Hread.
           rewrite (Hat i m H).
           pose proof (unreadCount_nonneg (take i rest)).
           replace (marked + unreadCount (take i rest) <? toMark) with false
             by (symmetry; apply Z.ltb_ge; lia).
           replace (marked + (1 + unreadCount (take i rest)) <? toMark)
             with false by (symmetry; apply Z.ltb_ge; lia).
           reflexivity.
Qed.

(** C10. For a requested count that is absent, zero or positive, let [k] be
    the number of unread messages when the count is absent or zero, and the
    count otherwise.  [POST /messages/read] answers [min k unread]; the
    messages it marks are the unread ones that have fewer than [k] unread
    messages before them in the queue, that is the oldest; a marked message
    differs from the original in its [read] flag only; every other message,
    the length and order of the queue and the rest of the state are
    unchanged. *)
Theorem messagesRead_marks_oldest_unread (count : option Z) (st : State) :
  (forall n, count = Some n -> 0 <= n) ->
  let unread := unreadCount (messageQueue st) in
  let k := match count with
           | Some n => if n =? 0 then unread else n
           | None => unread
           end in
  let st' := fst (messagesRead count st) in
  let marked := snd (messagesRead count st) in
  marked = Z.min k unread
  /\ length (messageQueue st') = length (messageQueue st)
  /\ (forall i m, messageQueue st !! i = Some m ->
        messageQueue st' !! i
        = Some (if negb (read m)
                   && (unreadCount (take i (messageQueue st)) <? k)
                then mkMessage (from m) (message m) (timestamp m) true
                               (sessionId m)
                else m))
  /\ unreadCount (messageQueue st') = unread - marked
  /\ st' = setMessageQueue (messageQueue st') st.
Proof.
  intros Hcount unread k st' marked.
  assert (Hk : 0 <= k).
  { unfold k. pose proof (unreadCount_nonneg (messageQueue st)).
    destruct count as [n|]; [|assumption].
    specialize (Hcount n eq_refl). destruct (n =? 0); [assumption|lia]. }
  pose proof (markLoop_spec k (messageQueue st) 0) as Hloop.
  unfold st', marked, messagesRead. fold unread. fold k.
  destruct (markLoop k 0 (messageQueue st)) as [queue' n] eqn:E.
  simpl in *. destruct Hloop as (Hlen & Hn & Hun & Hat).
  pose proof (unreadCount_nonneg (messageQueue st)).
  fold unread in Hn, Hun.
  split; [lia|]. split; [exact Hlen|]. split; [|split; [lia|reflexivity]].
  intros i m Hi. rewrite (Hat i m Hi). reflexivity.
Qed.

Lemma messagesRead_marks_oldest_unread_witness :
  snd (messagesRead (Some 2) inbox3) = 2
  /\ snd (messagesRead (Some 7) inbox3) = 3
  /\ snd (messagesRead None inbox3) = 3
  /\ messageQueue (fst (messagesRead (Some 2) inbox3)) !! 2%nat
     = Some (mkMessage "bob" "three" 3 true (Some "s-1"))
  /\ messageQueue (fst (messagesRead (Some 2) inbox3)) !! 3%nat
     = Some (mkMessage "bob" "four" 4 false None).
Proof.
  assert (H2 : forall n, Some 2 = Some n -> 0 <= n) by (intros n [= <-]; lia).
  assert (H7 : forall n, Some 7 = Some n -> 0 <= n) by (intros n [= <-]; lia).
  assert (H0 : forall n, @None Z = Some n -> 0 <= n) by (intros n; discriminate).
  destruct (messagesRead_marks_oldest_unread (Some 2) inbox3 H2)
    as (Hm & _ & Hat & _).
  split; [exact Hm|].
  split; [apply (messagesRead_marks_oldest_unread (Some 7) inbox3 H7)|].
  split; [apply (messagesRead_marks_oldest_unread None inbox3 H0)|].
  split.
  - exact (Hat 2%nat (mkMessage "bob" "three" 3 false (Some "s-1")) eq_refl).
  - exact (Hat 3%nat (mkMessage "bob" "four" 4 false None) eq_refl).
Defined.

(** A negative count is truthy and marks nothing. *)
Example messagesRead_negative :
  messagesRead (Some (-1)) inbox3 = (inbox3, 0).
Proof. reflexivity. Qed.

End InboxFacts.

(** ** The router *)

Module RouterFacts.
Import JsString ProjectRegistry Bridge MapFacts Outcomes Scenarios.

(** *** The routing pattern *)

Lemma spanChars_stops p s a c b :
  spanChars p s = (a, String c b) -> p c = false.
Proof.
  revert a. induction s as [|x s IH]; intros a; simpl; [discriminate|].
  destruct (p x) eqn:Hx.
  - destruct (spanChars p s) as [a' b'] eqn:E. intros [= <- ->]. eauto.
  - intros [= <- -> ->]. exact Hx.
Qed.

Lemma lineTerminator_isSpace c : isSpace c = false -> notLineTerminator c = true.
Proof.
  unfold isSpace, notLineTerminator, isLineTerminator, between.
  destruct (Nat.eqb_spec (code c) 10) as [->|]; [discriminate|].
  destruct (Nat.eqb_spec (code c) 13) as [->|]; [discriminate|].
  reflexivity.
Qed.

(** The second group of a match, [(.+)], is never empty. *)
Lemma projectMatch_payload text target payload :
  projectMatch text = Some (target, payload) -> payload <> "".
Proof.
  unfold projectMatch.
  destruct (spanChars isNameChar text) as [t rest].
  destruct t as [|t0 t]; [discriminate|].
  destruct rest as [|colon rest]; [discriminate|].
  destruct (Ascii.eqb colon ":"); [|discriminate].
  destruct (spanChars isSpace rest) as [blank tail] eqn:E.
  destruct tail as [|c tail].
  - destruct (lastChar notLineTerminator blank); [|discriminate].
    intros [= _ <-]. discriminate.
  - apply spanChars_stops in E. apply lineTerminator_isSpace in E.
    simpl. rewrite E. destruct (spanChars notLineTerminator tail).
    intros [= _ <-]. discriminate.
Qed.

(** *** What a routed message ends in *)







End RouterFacts.

(** ** Invariants of the running server *)

Module Invariants.
Import JsString ProjectRegistry Bridge MapFacts Outcomes.

Lemma QuestionsOk_frame st st' :
  questionsOf st' = questionsOf st -> QuestionsOk st -> QuestionsOk st'.
Proof.
  unfold questionsOf. intros [= Hq Hp Ht Hn] [].
  constructor; rewrite ?Hq, ?Hp, ?Ht, ?Hn; assumption.
Qed.

Lemma SessionsOk_frame st st' :
  activeSessions st' = activeSessions st -> SessionsOk st -> SessionsOk st'.
Proof. intros H []. constructor; rewrite H; assumption. Qed.

(** *** Frames of the handlers *)

Lemma routeMessage_questions env from text st :
  questionsOf (fst (routeMessage env from text st)) = questionsOf st.
Proof.
  unfold routeMessage, routeToProject, spawnOrQueue, enqueue, pushMessage,
    questionsOf.
  repeat case_match; simpl; congruence.
Qed.

Lemma routeMessage_lastMessageSession env from text st :
  lastMessageSession (fst (routeMessage env from text st))
  = lastMessageSession st.
Proof.
  unfold routeMessage, routeToProject, spawnOrQueue, enqueue, pushMessage.
  repeat case_match; simpl; congruence.
Qed.

Lemma routeMessage_sessions env from text st :
  activeSessions (fst (routeMessage env from text st)) = activeSessions st
  \/ exists k, activeSessions (fst (routeMessage env from text st))
               = mapDelete k (activeSessions st).
Proof.
  unfold routeMessage, routeToProject, spawnOrQueue, enqueue, pushMessage.
  repeat case_match; simpl; eauto.
Qed.

Lemma onText_lastMessageSession env from text st :
  lastMessageSession (fst (onText env from text st)) = lastMessageSession st.
Proof.
  unfold onText.
  destruct (pendingQuestions st) as [|[k q] rest];
    [apply routeMessage_lastMessageSession|].
  destruct (negb (String.eqb k ""));
    [reflexivity|apply routeMessage_lastMessageSession].
Qed.

Lemma onText_sessions env from text st :
  activeSessions (fst (onText env from text st)) = activeSessions st
  \/ exists k, activeSessions (fst (onText env from text st))
               = mapDelete k (activeSessions st).
Proof.
  unfold onText.
  destruct (pendingQuestions st) as [|[k q] rest];
    [apply routeMessage_sessions|].
  destruct (negb (String.eqb k "")); [by left|apply routeMessage_sessions].
Qed.

(** *** Sessions *)

Lemma In_mapSet {V} k (v : V) m k' v' :
  In (k', v') (mapSet k v m) -> (k' = k /\ v' = v) \/ In (k', v') m.
Proof.
  induction m as [|[k0 v0] m IH]; simpl.
  - intros [[= <- <-]|[]]. by left.
  - destruct (String.eqb k0 k); simpl.
    + intros [[= <- <-]|H]; [by left|by right; right].
    + intros [H|H]; [by right; left|]. destruct (IH H); [by left|by right; right].
Qed.

Lemma In_mapDelete {V} k (m : list (string * V)) e :
  In e (mapDelete k m) -> In e m /\ fst e <> k.
Proof.
  unfold mapDelete. rewrite List.filter_In. intros [H Hk].
  split; [exact H|]. apply negb_true_iff in Hk. by apply String.eqb_neq.
Qed.

Lemma SessionsOk_set k s st :
  id s = k -> SessionsOk st ->
  SessionsOk (setSessions (mapSet k s (activeSessions st)) st).
Proof.
  intros Hid [Hnd Hkeys]. constructor; simpl.
  - by apply NoDup_mapSet.
  - intros k' s' Hin. apply In_mapSet in Hin as [[-> ->]|Hin]; eauto.
Qed.

Lemma SessionsOk_delete k st st' :
  activeSessions st' = mapDelete k (activeSessions st) ->
  SessionsOk st -> SessionsOk st'.
Proof.
  intros H [Hnd Hkeys]. constructor; rewrite H.
  - by apply NoDup_mapDelete.
  - intros k' s' Hin. apply In_mapDelete in Hin as [Hin _]. eauto.
Qed.

Lemma SessionsOk_sweep now st : SessionsOk st -> SessionsOk (sweep now st).
Proof.
  intros [Hnd Hkeys]. constructor; simpl.
  - rewrite SessionFacts.sweep_filter by assumption.
    clear Hkeys. induction (activeSessions st) as [|[k s] m IH];
      simpl; [constructor|].
    apply NoDup_cons in Hnd as [Hk Hnd]. destruct (expired now s); simpl; auto.
    constructor; auto. intros Hin. apply Hk.
    apply list_elem_of_In in Hin. apply list_elem_of_In.
    apply List.in_map_iff in Hin as [e [He Hin]].
    apply List.filter_In in Hin as [Hin _].
    apply List.in_map_iff. eauto.
  - intros k s. rewrite SessionFacts.sweep_filter by assumption.
    rewrite List.filter_In. intros [Hin _]. eauto.
Qed.

Lemma SessionsOk_step e st : SessionsOk st -> SessionsOk (step e st).
Proof.
  intros Hok.
  destruct e as [env sender text|now sid pn pp|now sid|now|now msg osid|count
                |now question ms|h|env pn prompt|pn|pn|pn
                |now rnd pn pp msg sender prio|pn taskId|chat|]; simpl.
  - destruct (onText_sessions env sender text st) as [H|[k H]].
    + by apply (SessionsOk_frame st).
    + by apply (SessionsOk_delete k st).
  - unfold register. destruct (_ || _); [assumption|].
    destruct (mapGet sid (activeSessions st)) as [s|] eqn:E; simpl.
    + apply SessionsOk_set; [|assumption]. simpl.
      destruct Hok as [_ Hkeys]. apply Hkeys. by apply mapGet_In.
    + by apply SessionsOk_set.
  - unfold heartbeat. destruct (String.eqb sid ""); [assumption|].
    destruct (mapGet sid (activeSessions st)) as [s|] eqn:E; simpl;
      [|assumption].
    apply SessionsOk_set; [|assumption]. simpl.
    destruct Hok as [_ Hkeys]. apply Hkeys. by apply mapGet_In.
  - by apply SessionsOk_sweep.
  - unfold notify. repeat case_match; simpl; try assumption.
    apply (SessionsOk_frame
             (setSessions (mapSet s (touch now c) (activeSessions st)) st));
      [reflexivity|].
    apply SessionsOk_set; [|assumption]. simpl.
    destruct Hok as [_ Hkeys]. apply Hkeys. by apply mapGet_In.
  - unfold messagesRead. destruct (markLoop _ _ _).
    by apply (SessionsOk_frame st).
  - unfold ask. repeat case_match; simpl; try assumption;
      by apply (SessionsOk_frame st).
  - unfold onTimeout. case_match; [|assumption].
    by apply (SessionsOk_frame st).
  - by apply (SessionsOk_frame st).
  - by apply (SessionsOk_frame st).
  - by apply (SessionsOk_frame st).
  - by apply (SessionsOk_frame st).
  - case_match; [assumption|]. by apply (SessionsOk_frame st).
  - case_match; [assumption|]. by apply (SessionsOk_frame st).
  - by apply (SessionsOk_frame st).
  - by apply (SessionsOk_frame st).
Qed.

(** *** Questions *)

Lemma pretty_N_go_nonempty x s : s <> "" -> pretty_N_go x s <> "".
Proof.
  revert s. induction (N.lt_wf_0 x) as [x _ IH]; intros s Hs.
  destruct (decide (x = 0)%N) as [->|Hx]; [by rewrite pretty_N_go_0|].
  rewrite pretty_N_go_step by lia. apply IH; [apply N.div_lt; lia|done].
Qed.

(** [Date.now().toString()] is never the empty string. *)
Lemma pretty_Z_nonempty (z : Z) : pretty z <> "".
Proof.
  destruct z as [|x|x]; [done| |done].
  unfold pretty, pretty_Z, pretty, pretty_positive, pretty, pretty_N.
  case_decide; [done|].
  rewrite pretty_N_go_step by lia. by apply pretty_N_go_nonempty.
Qed.

Lemma settle_other p p' v (ps : list Settlement) :
  p' <> p -> settle p v ps !! p' = ps !! p'.
Proof.
  intros Hne. unfold settle. destruct (ps !! p) as [[]|]; try reflexivity.
  by apply list_lookup_insert_ne.
Qed.

Lemma settle_waiting p v (ps : list Settlement) :
  ps !! p = Some Waiting -> settle p v ps !! p = Some v.
Proof.
  intros H. unfold settle. rewrite H. apply list_lookup_insert_eq.
  by apply lookup_lt_Some in H.
Qed.

(** A settled promise stays as it is. *)
Lemma settle_settled p p' v w (ps : list Settlement) :
  ps !! p' = Some w -> w <> Waiting -> settle p v ps !! p' = Some w.
Proof.
  intros H Hw. destruct (decide (p' = p)) as [->|Hne].
  - unfold settle. rewrite H. by destruct w.
  - by rewrite settle_other.
Qed.

(** Retiring a timer together with the entry of its question: what both the
    timer callback and the answer of a question do. *)
Lemma QuestionsOk_retire h t v st :
  QuestionsOk st -> timers st !! h = Some t ->
  QuestionsOk
    (setQuestions (mapDelete (questionId t) (pendingQuestions st))
                  (settle (reject t) v (promises st))
                  (delete h (timers st)) (nextTimer st) st).
Proof.
  intros [Hnd Hne Hentry Hwait Hfresh Hinj] Ht. constructor; simpl.
  - by apply NoDup_mapDelete.
  - intros k q Hin. apply In_mapDelete in Hin as [Hin _]. eauto.
  - intros k q Hin. apply In_mapDelete in Hin as [Hin Hk]. simpl in Hk.
    destruct (Hentry k q Hin) as [ms Hms]. exists ms.
    rewrite lookup_delete_ne; [exact Hms|].
    intros Heq. subst h. rewrite Ht in Hms. injection Hms as ->. by apply Hk.
  - intros h' t' Ht'. apply lookup_delete_Some in Ht' as [Hh Ht'].
    rewrite settle_other; [by eapply Hwait|].
    intros Heq. apply Hh. by eapply Hinj.
  - intros h' t' Ht'. apply lookup_delete_Some in Ht' as [_ Ht']. eauto.
  - intros h1 h2 t1 t2 H1 H2.
    apply lookup_delete_Some in H1 as [_ H1].
    apply lookup_delete_Some in H2 as [_ H2]. eauto.
Qed.

Lemma QuestionsOk_ask now question ms st :
  QuestionsOk st -> QuestionsOk (fst (ask now question ms st)).
Proof.
  intros Hok. unfold ask.
  destruct (negb (truthy (chatId st))); [assumption|].
  destruct (String.eqb question ""); [assumption|].
  destruct Hok as [Hnd Hne Hentry Hwait Hfresh Hinj]. constructor; simpl.
  - by apply NoDup_mapSet.
  - intros k q Hin. apply In_mapSet in Hin as [[-> _]|Hin]; eauto.
    apply pretty_Z_nonempty.
  - intros k q Hin. apply In_mapSet in Hin as [[-> ->]|Hin]; simpl.
    + eexists. apply lookup_insert_eq.
    + destruct (Hentry k q Hin) as [d Hd]. exists d.
      rewrite lookup_insert_ne; [exact Hd|].
      apply Hfresh in Hd. lia.
  - intros h t Ht. apply lookup_insert_Some in Ht as [[<- <-]|[Hh Ht]]; simpl.
    + rewrite lookup_app_r by lia. by rewrite Nat.sub_diag.
    + apply lookup_app_l_Some. eauto.
  - intros h t Ht. apply lookup_insert_Some in Ht as [[<- <-]|[Hh Ht]].
    + lia.
    + apply Hfresh in Ht. lia.
  - intros h1 h2 t1 t2 H1 H2 Heq.
    apply lookup_insert_Some in H1 as [[<- <-]|[Hh1 H1]];
      apply lookup_insert_Some in H2 as [[<- <-]|[Hh2 H2]]; simpl in *.
    + reflexivity.
    + apply Hwait in H2. apply lookup_lt_Some in H2. lia.
    + apply Hwait in H1. apply lookup_lt_Some in H1. lia.
    + eauto.
Qed.

Lemma QuestionsOk_onTimeout h st :
  QuestionsOk st -> QuestionsOk (onTimeout h st).
Proof.
  intros Hok. unfold onTimeout.
  destruct (timers st !! h) as [t|] eqn:Ht; [|assumption].
  by apply QuestionsOk_retire.
Qed.

(** The two ways through the text handler. *)
Lemma onText_answers env sender text st k q rest :
  pendingQuestions st = (k, q) :: rest -> k <> "" ->
  onText env sender text st
  = (setQuestions (mapDelete k (pendingQuestions st))
                  (settle (resolve q) (Answered text) (promises st))
                  (delete (timeout q) (timers st)) (nextTimer st) st,
     [AnswerReceived]).
Proof.
  intros Hpq Hk. unfold onText. rewrite Hpq.
  by rewrite (SessionFacts.eqb_empty_false _ Hk).
Qed.

Lemma onText_routes env sender text st :
  pendingQuestions st = [] ->
  onText env sender text st = routeMessage env sender text st.
Proof. intros Hpq. unfold onText. by rewrite Hpq. Qed.

Lemma QuestionsOk_onText env sender text st :
  QuestionsOk st -> QuestionsOk (fst (onText env sender text st)).
Proof.
  intros Hok.
  destruct (pendingQuestions st) as [|[k q] rest] eqn:Hpq.
  - rewrite onText_routes by assumption.
    eapply QuestionsOk_frame; [apply routeMessage_questions|assumption].
  - assert (Hk : k <> "").
    { apply (keys_truthy st Hok k q). rewrite Hpq. by left. }
    rewrite (onText_answers _ _ _ _ _ _ _ Hpq Hk). simpl.
    destruct (entry_timer st Hok k q) as [ms Hms].
    { rewrite Hpq. by left. }
    exact (QuestionsOk_retire (timeout q) (mkTimer k (resolve q) ms)
                              (Answered text) st Hok Hms).
Qed.

Lemma QuestionsOk_step e st : QuestionsOk st -> QuestionsOk (step e st).
Proof.
  intros Hok.
  destruct e as [env sender text|now sid pn pp|now sid|now|now msg osid|count
                |now question ms|h|env pn prompt|pn|pn|pn
                |now rnd pn pp msg sender prio|pn taskId|chat|]; simpl.
  - by apply QuestionsOk_onText.
  - unfold register. repeat case_match; simpl; try assumption;
      by apply (QuestionsOk_frame st).
  - unfold heartbeat. repeat case_match; simpl; try assumption;
      by apply (QuestionsOk_frame st).
  - by apply (QuestionsOk_frame st).
  - unfold notify. repeat case_match; simpl; try assumption;
      by apply (QuestionsOk_frame st).
  - unfold messagesRead. destruct (markLoop _ _ _).
    by apply (QuestionsOk_frame st).
  - by apply QuestionsOk_ask.
  - by apply QuestionsOk_onTimeout.
  - by apply (QuestionsOk_frame st).
  - by apply (QuestionsOk_frame st).
  - by apply (QuestionsOk_frame st).
  - by apply (QuestionsOk_frame st).
  - case_match; [assumption|]. by apply (QuestionsOk_frame st).
  - case_match; [assumption|]. by apply (QuestionsOk_frame st).
  - by apply (QuestionsOk_frame st).
  - by apply (QuestionsOk_frame st).
Qed.

(** Both invariants hold in every state the server reaches. *)
Lemma reachable_ok st : Reachable st -> QuestionsOk st /\ SessionsOk st.
Proof.
  induction 1 as [chat enabled|e st Hreach [Hq Hs]].
  - split; constructor; simpl; try (intros; contradiction);
      try (intros ? ? H; by rewrite lookup_empty in H);
      try (intros ? ? ? ? H; by rewrite lookup_empty in H); constructor.
  - split; [by apply QuestionsOk_step|by apply SessionsOk_step].
Qed.

End Invariants.

(** ** Questions, answers and the last active session *)

Module QuestionFacts.
Import JsString ProjectRegistry Bridge MapFacts Outcomes Scenarios
  Invariants.

Lemma mapDelete_absent {V} k (m : list (string * V)) :
  ~ In k (mapKeys m) -> mapDelete k m = m.
Proof.
  induction m as [|[k' v] m IH]; simpl; [reflexivity|]. intros Hk.
  destruct (String.eqb k' k) eqn:E.
  - apply String.eqb_eq in E. tauto.
  - simpl. rewrite IH; tauto.
Qed.

(** Deleting the first key of a map gives the rest of the map. *)
Lemma mapDelete_first {V} k (v : V) rest :
  NoDup (mapKeys ((k, v) :: rest)) -> mapDelete k ((k, v) :: rest) = rest.
Proof.
  intros Hnd. apply NoDup_cons in Hnd as [Hk _]. simpl.
  rewrite String.eqb_refl. simpl. apply mapDelete_absent.
  intros Hin. apply Hk. by apply list_elem_of_In.
Qed.

(** The first entry of [pendingQuestions] in a reachable state: its promise
    is waiting and its timer is armed. *)
Lemma first_question st k q rest :
  Reachable st -> pendingQuestions st = (k, q) :: rest ->
  k <> "" /\ promises st !! resolve q = Some Waiting
  /\ exists ms, timers st !! timeout q = Some (mkTimer k (resolve q) ms).
Proof.
  intros Hreach Hpq. destruct (reachable_ok st Hreach) as [Hok _].
  assert (Hin : In (k, q) (pendingQuestions st)) by (rewrite Hpq; by left).
  destruct (entry_timer st Hok k q Hin) as [ms Hms].
  split; [by apply (keys_truthy st Hok k q)|]. split; [|eauto].
  exact (timer_waiting st Hok _ _ Hms).
Qed.

(** What an event does to the promises. *)
Lemma step_promises e st :
  promises (step e st) = promises st
  \/ (exists p v, promises (step e st) = settle p v (promises st))
  \/ promises (step e st) = promises st ++ [Waiting].
Proof.
  destruct e as [env sender text|now sid pn pp|now sid|now|now msg osid|count
                |now question ms|h|env pn prompt|pn|pn|pn
                |now rnd pn pp msg sender prio|pn taskId|chat|]; simpl;
    try (by left).
  - unfold onText. destruct (pendingQuestions st) as [|[k q] rest].
    + left. pose proof (routeMessage_questions env sender text st) as H.
      unfold questionsOf in H. congruence.
    + destruct (negb (String.eqb k "")); simpl; [right; left; eauto|].
      left. pose proof (routeMessage_questions env sender text st) as H.
      unfold questionsOf in H. congruence.
  - left. unfold register. by repeat case_match.
  - left. unfold heartbeat. by repeat case_match.
  - left. unfold notify. by repeat case_match.
  - left. unfold messagesRead. by destruct (markLoop _ _ _).
  - unfold ask. repeat case_match; simpl; auto.
  - unfold onTimeout. case_match; simpl; [right; left; eauto|by left].
  - left. by case_match.
  - left. by case_match.
Qed.

(** A promise that is settled is never settled again. *)
Lemma settled_for_good e st p v :
  promises st !! p = Some v -> v <> Waiting ->
  promises (step e st) !! p = Some v.
Proof.
  intros Hp Hv. destruct (step_promises e st) as [H|[(p' & v' & H)|H]];
    rewrite H.
  - exact Hp.
  - by apply settle_settled.
  - by apply lookup_app_l_Some.
Qed.

(** C3, as the handler has it.  In any state the server reaches: if
    questions are pending, the next text message, with or without a project
    prefix, answers the oldest one, the first entry of [pendingQuestions],
    and only that one: its promise, which was waiting, is resolved with
    the whole text, its timer is cleared, its entry is removed, every other
    entry, timer and promise is as before, and nothing else in the state
    changes, so the message is not routed.  A message is routed only when
    no question is pending. *)
Theorem next_message_answers_oldest_question
    (env : Env) (sender text : string) (st : State) :
  Reachable st ->
  match pendingQuestions st with
  | [] => onText env sender text st = routeMessage env sender text st
  | (k, q) :: rest =>
      let st' := fst (onText env sender text st) in
      snd (onText env sender text st) = [AnswerReceived]
      /\ promises st !! resolve q = Some Waiting
      /\ promises st' !! resolve q = Some (Answered text)
      /\ (forall p, p <> resolve q -> promises st' !! p = promises st !! p)
      /\ pendingQuestions st' = rest
      /\ timers st' = delete (timeout q) (timers st)
      /\ st' = setQuestions rest (promises st') (timers st') (nextTimer st) st
  end.
Proof.
  intros Hreach.
  destruct (pendingQuestions st) as [|[k q] rest] eqn:Hpq.
  - by apply onText_routes.
  - destruct (first_question st k q rest Hreach Hpq) as (Hk & Hwait & _).
    destruct (reachable_ok st Hreach) as [Hok _].
    pose proof (keys_distinct st Hok) as Hnd. rewrite Hpq in Hnd.
    rewrite (onText_answers _ _ _ _ _ _ _ Hpq Hk). simpl.
    rewrite Hpq, (mapDelete_first _ _ _ Hnd).
    split; [reflexivity|]. split; [exact Hwait|].
    split; [by apply settle_waiting|].
    split; [intros p Hp; by apply settle_other|].
    split; [|split]; reflexivity.
Qed.

Lemma askedState_reachable : Reachable askedState.
Proof. apply reach_step, reach_initial. Qed.

Lemma next_message_answers_oldest_question_witness :
  snd (onText quietEnv "bob" "yes" askedState) = [AnswerReceived]
  /\ promises (fst (onText quietEnv "bob" "yes" askedState)) !! 0%nat
     = Some (Answered "yes")
  /\ pendingQuestions (fst (onText quietEnv "bob" "yes" askedState)) = [].
Proof.
  pose proof (next_message_answers_oldest_question quietEnv "bob" "yes"
                askedState askedState_reachable) as H.
  simpl in H. destruct H as (Hreply & _ & Hp & _ & Hq & _).
  split; [exact Hreply|]. split; [exact Hp|exact Hq].
Defined.

(** C3, counterexample.  A question is pending and the message [Foo: hello]
    arrives.  It matches the routing pattern, and the router would queue it
    for [Foo]; the handler instead resolves the question with the text
    [Foo: hello] and queues nothing. *)
Lemma prefixed_message_consumed_as_answer :
  let st' := fst (onText quietEnv "bob" "Foo: hello" askedState) in
  projectMatch "Foo: hello" = Some ("Foo", "hello")
  /\ snd (onText quietEnv "bob" "Foo: hello" askedState) = [AnswerReceived]
  /\ promises st' = [Answered "Foo: hello"]
  /\ QueueManager.loadQueue "Foo" (queues st') = []
  /\ messageQueue st' = []
  /\ snd (routeMessage quietEnv "bob" "Foo: hello" askedState)
     = [QueuedNotRegistered "Foo"]
  /\ length (QueueManager.loadQueue "Foo"
               (queues (fst (routeMessage quietEnv "bob" "Foo: hello"
                                          askedState)))) = 1%nat.
Proof. vm_compute. repeat split; reflexivity. Qed.

(** *** The last active session *)

(** Only a notification changes [lastMessageSession]. *)
Lemma step_lastMessageSession e st :
  (forall t note sid, e <> Notify t note sid) ->
  lastMessageSession (step e st) = lastMessageSession st.
Proof.
  intros Hnot.
  destruct e as [env sender text|now sid pn pp|now sid|now|now msg osid|count
                |now question ms|h|env pn prompt|pn|pn|pn
                |now rnd pn pp msg sender prio|pn taskId|chat|]; simpl;
    try reflexivity.
  - apply onText_lastMessageSession.
  - unfold register. by repeat case_match.
  - unfold heartbeat. by repeat case_match.
  - by destruct (Hnot now msg osid).
  - unfold messagesRead. by destruct (markLoop _ _ _).
  - unfold ask. by repeat case_match.
  - unfold onTimeout. by case_match.
  - by case_match.
  - by case_match.
Qed.

(** C4, as the code has it.  The text handler never changes
    [lastMessageSession], whatever the routing ends in, and no other event
    but a notification does.  A notification that a registered session
    sends through [POST /notify] sets it to that session, and a later
    message without a project prefix, when no question is pending, is put
    in the inbox addressed to that session. *)
Theorem last_session_follows_notifications
    (t : Z) (note sid : string) (s : ClaudeSession)
    (env : Env) (sender text : string) (st : State) :
  ENABLED st = true -> truthy (chatId st) = true ->
  note <> "" -> sid <> "" ->
  mapGet sid (activeSessions st) = Some s ->
  pendingQuestions st = [] -> projectMatch text = None ->
  let st1 := fst (notify t note (Some sid) st) in
  lastMessageSession st1 = Some sid
  /\ (forall env' sender' text' st0,
        lastMessageSession (fst (onText env' sender' text' st0))
        = lastMessageSession st0)
  /\ (forall e st0, (forall t' note' sid', e <> Notify t' note' sid') ->
        lastMessageSession (step e st0) = lastMessageSession st0)
  /\ messageQueue (fst (onText env sender text st1))
     = messageQueue st ++ [mkMessage sender text (now env) false (Some sid)]
  /\ snd (onText env sender text st1) = [AutoRouted (projectName s) sid].
Proof.
  intros Hen Hchat Hnote Hsid Hs Hpq Hmatch st1.
  assert (Hst1 : st1 = setLastMessageSession (Some sid)
                         (setSessions (mapSet sid (touch t s)
                                         (activeSessions st)) st)).
  { unfold st1, notify. rewrite Hen, Hchat. simpl.
    rewrite !SessionFacts.eqb_empty_false by assumption. by rewrite Hs. }
  split; [by rewrite Hst1|].
  split; [intros; apply onText_lastMessageSession|].
  split; [intros; by apply step_lastMessageSession|].
  assert (Hroute : onText env sender text st1
    = (pushMessage (mkMessage sender text (now env) false (Some sid)) st1,
       [AutoRouted (projectName s) sid])).
  { rewrite onText_routes by (rewrite Hst1; exact Hpq).
    unfold routeMessage. rewrite Hmatch, Hst1. simpl.
    rewrite (SessionFacts.eqb_empty_false _ Hsid). simpl.
    by rewrite mapGet_mapSet_eq. }
  rewrite Hroute. simpl. split; [by rewrite Hst1|reflexivity].
Qed.

Lemma last_session_follows_notifications_witness :
  let st1 := fst (notify 1500 "done" (Some "a") twoWorkers) in
  lastMessageSession st1 = Some "a"
  /\ messageQueue (fst (onText betaEnv "bob" "and now?" st1))
     = [mkMessage "bob" "and now?" 2000 false (Some "a")].
Proof.
  destruct (last_session_follows_notifications 1500 "done" "a"
              (mkSession "a" "Alpha" "/work/alpha" 1000 1000 active)
              betaEnv "bob" "and now?" twoWorkers
              eq_refl eq_refl ltac:(discriminate) ltac:(discriminate)
              eq_refl eq_refl eq_refl) as (Hlast & _ & _ & Hq & _).
  split; [exact Hlast|exact Hq].
Defined.

(** C4, counterexample.  Session [a] (project [Alpha]) has sent a
    notification.  The message [Beta: hi] is then delivered to the live
    session [b] of [Beta]; [lastMessageSession] is still [a], and the next
    message without a prefix goes to [a], not to [b].  A message that ends
    up queued leaves [lastMessageSession] alone as well. *)
Lemma routing_leaves_last_session :
  let st1 := fst (notify 1500 "done" (Some "a") twoWorkers) in
  let st2 := fst (onText betaEnv "bob" "Beta: hi" st1) in
  let st3 := fst (onText betaEnv "bob" "and now?" st2) in
  let st4 := fst (onText betaEnv "bob" "Gamma: build" st1) in
  snd (onText betaEnv "bob" "Beta: hi" st1) = [SentToActiveSession "Beta"]
  /\ messageQueue st2 = [mkMessage "bob" "hi" 2000 false (Some "b")]
  /\ lastMessageSession st2 = Some "a"
  /\ snd (onText betaEnv "bob" "and now?" st2) = [AutoRouted "Alpha" "a"]
  /\ messageQueue st3
     = [mkMessage "bob" "hi" 2000 false (Some "b");
        mkMessage "bob" "and now?" 2000 false (Some "a")]
  /\ snd (onText betaEnv "bob" "Gamma: build" st1)
     = [QueuedNotRegistered "Gamma"]
  /\ lastMessageSession st4 = Some "a".
Proof. vm_compute. repeat split; reflexivity. Qed.

(** *** A question is settled once *)

(** C6.  In any state the server reaches:
    - issuing a question creates a waiting promise, arms a timer with the
      given delay and records an entry under the key [Date.now().toString()];
    - when an armed timer fires, its promise, which was waiting, is
      rejected ([/ask] answers with the timeout error), the entry of its
      question is deleted and the timer is gone, and no later message
      changes that promise;
    - when a message answers the first entry, the promise of that entry,
      which was waiting, is resolved with the text, the timer of the entry
      is cleared and the entry is deleted, and no timer that fires later
      changes that promise;
    - whatever happens next, a promise that is settled keeps its
      settlement. *)
Theorem question_settled_once (st : State) :
  Reachable st ->
  (forall t question ms,
      truthy (chatId st) = true -> question <> "" ->
      let st' := fst (ask t question (Some ms) st) in
      let p := length (promises st) in
      snd (ask t question (Some ms) st) = ok p
      /\ promises st' !! p = Some Waiting
      /\ mapGet (pretty t) (pendingQuestions st')
         = Some (mkQuestion p (nextTimer st))
      /\ timers st' !! nextTimer st = Some (mkTimer (pretty t) p ms))
  /\ (forall h t, timers st !! h = Some t ->
        let st' := onTimeout h st in
        promises st !! reject t = Some Waiting
        /\ promises st' !! reject t = Some TimedOut
        /\ askResponse (reject t) st' = Some (failed 500)
        /\ mapGet (questionId t) (pendingQuestions st') = None
        /\ timers st' !! h = None
        /\ forall env sender text,
             promises (fst (onText env sender text st')) !! reject t
             = Some TimedOut)
  /\ (forall k q rest env sender text,
        pendingQuestions st = (k, q) :: rest ->
        let st' := fst (onText env sender text st) in
        promises st !! resolve q = Some Waiting
        /\ promises st' !! resolve q = Some (Answered text)
        /\ askResponse (resolve q) st' = Some (ok text)
        /\ timers st' !! timeout q = None
        /\ mapGet k (pendingQuestions st') = None
        /\ forall h, promises (onTimeout h st') !! resolve q
                     = Some (Answered text))
  /\ (forall e p v, promises st !! p = Some v -> v <> Waiting ->
        promises (step e st) !! p = Some v).
Proof.
  intros Hreach. destruct (reachable_ok st Hreach) as [Hok _].
  split; [|split; [|split]].
  - intros t question ms Hchat Hquestion st' p.
    assert (Hask : ask t question (Some ms) st
      = (setQuestions
           (mapSet (pretty t) (mkQuestion p (nextTimer st))
                   (pendingQuestions st))
           (promises st ++ [Waiting])
           (<[nextTimer st := mkTimer (pretty t) p ms]> (timers st))
           (S (nextTimer st)) st, ok p)).
    { unfold ask. rewrite Hchat. simpl.
      by rewrite (SessionFacts.eqb_empty_false _ Hquestion). }
    unfold st'. rewrite Hask. simpl.
    split; [reflexivity|]. split; [|split].
    + unfold p. rewrite lookup_app_r by lia. by rewrite Nat.sub_diag.
    + apply mapGet_mapSet_eq.
    + apply lookup_insert_eq.
  - intros h t Ht st'.
    pose proof (timer_waiting st Hok h t Ht) as Hwait.
    assert (Hst' : st' = setQuestions
                           (mapDelete (questionId t) (pendingQuestions st))
                           (settle (reject t) TimedOut (promises st))
                           (delete h (timers st)) (nextTimer st) st).
    { unfold st', onTimeout. by rewrite Ht. }
    assert (Hp : promises st' !! reject t = Some TimedOut).
    { rewrite Hst'. simpl. by apply settle_waiting. }
    split; [exact Hwait|]. split; [exact Hp|].
    split; [unfold askResponse; by rewrite Hp|].
    split; [rewrite Hst'; apply mapGet_mapDelete_eq|].
    split; [rewrite Hst'; apply lookup_delete_eq|].
    intros env sender text.
    exact (settled_for_good (Text env sender text) st' _ _ Hp
                            ltac:(discriminate)).
  - intros k q rest env sender text Hpq st'.
    destruct (first_question st k q rest Hreach Hpq) as (Hk & Hwait & _).
    assert (Hst' : st' = setQuestions
                           (mapDelete k (pendingQuestions st))
                           (settle (resolve q) (Answered text) (promises st))
                           (delete (timeout q) (timers st)) (nextTimer st) st).
    { unfold st'. by rewrite (onText_answers _ _ _ _ _ _ _ Hpq Hk). }
    assert (Hp : promises st' !! resolve q = Some (Answered text)).
    { rewrite Hst'. simpl. by apply settle_waiting. }
    split; [exact Hwait|]. split; [exact Hp|].
    split; [unfold askResponse; by rewrite Hp|].
    split; [rewrite Hst'; apply lookup_delete_eq|].
    split; [rewrite Hst'; apply mapGet_mapDelete_eq|].
    intros h.
    exact (settled_for_good (TimerFires h) st' _ _ Hp ltac:(discriminate)).
  - intros e p v. apply settled_for_good.
Qed.

Lemma question_settled_once_witness :
  promises (onTimeout 0 askedState) !! 0%nat = Some TimedOut
  /\ pendingQuestions (onTimeout 0 askedState) = []
  /\ promises (fst (onText quietEnv "bob" "yes" askedState)) !! 0%nat
     = Some (Answered "yes")
  /\ promises (onTimeout 0 (fst (onText quietEnv "bob" "yes" askedState)))
       !! 0%nat = Some (Answered "yes").
Proof.
  destruct (question_settled_once askedState askedState_reachable)
    as (_ & Hfire & Hanswer & _).
  destruct (Hfire 0%nat (mkTimer "5" 0 50) eq_refl) as (_ & Hp & _).
  destruct (Hanswer "5" (mkQuestion 0 0) [] quietEnv "bob" "yes" eq_refl)
    as (_ & Ha & _ & _ & _ & Hlater).
  split; [exact Hp|]. split; [reflexivity|]. split; [exact Ha|exact (Hlater 0%nat)].
Defined.

(** Two questions issued within the same millisecond share their key: the
    entry of the second replaces that of the first, and the timer of the
    first, when it fires, deletes the entry of the second. *)
Example questions_of_one_instant :
  let st := step (Ask 5 "Really?" (Some 9000)) askedState in
  pendingQuestions st = [("5", mkQuestion 1 1)]
  /\ pendingQuestions (onTimeout 0 st) = []
  /\ promises (onTimeout 0 st) = [TimedOut; Waiting].
Proof. vm_compute. repeat split; reflexivity. Qed.

End QuestionFacts.

(** * Further properties *)

(** ** The task queue: names, round trips, acknowledgement *)

Module QueueMore.
Import JsString QueueManager Outcomes QueueFacts.

(** *** Strings *)

Lemma append_length (a b : string) :
  String.length (a +:+ b) = (String.length a + String.length b)%nat.
Proof. induction a as [|c a IH]; simpl; [reflexivity|]. by rewrite IH. Qed.

Lemma dropChars_append (a b : string) :
  dropChars (String.length a) (a +:+ b) = b.
Proof. induction a as [|c a IH]; simpl; [by destruct b|exact IH]. Qed.

Lemma endsWith_append (a b : string) : endsWith (a +:+ b) b = true.
Proof.
  unfold endsWith. rewrite append_length.
  replace (String.length a + String.length b - String.length b)%nat
    with (String.length a) by lia.
  rewrite dropChars_append, String.eqb_refl.
  apply andb_true_iff. split; [apply Nat.leb_le; lia|reflexivity].
Qed.

Lemma mapChars_length f s : String.length (mapChars f s) = String.length s.
Proof. induction s as [|c s IH]; simpl; [reflexivity|]. by rewrite IH. Qed.

Lemma mapChars_id f s :
  allChars (fun c => Ascii.eqb (f c) c) s = true -> mapChars f s = s.
Proof.
  induction s as [|c s IH]; simpl; [reflexivity|].
  intros H. apply andb_true_iff in H as [Hc Hs].
  apply Ascii.eqb_eq in Hc. by rewrite Hc, IH.
Qed.

Lemma allChars_impl (p q : ascii -> bool) s :
  (forall c, p c = true -> q c = true) ->
  allChars p s = true -> allChars q s = true.
Proof.
  intros Hpq. induction s as [|c s IH]; simpl; [reflexivity|].
  intros H. apply andb_true_iff in H as [Hc Hs].
  by rewrite (Hpq c Hc), IH.
Qed.

(** *** Characters, by cases *)

Lemma sanitized_char c :
  isFileChar (lowerChar (if isNameChar c then c else "_"%char)) = true.
Proof. destruct c as [[] [] [] [] [] [] [] []]; reflexivity. Qed.

Lemma fileChar_no_separator c :
  isFileChar c = true -> c <> "/"%char /\ c <> "."%char /\ c <> "\"%char.
Proof.
  destruct c as [[] [] [] [] [] [] [] []]; intros H;
    first [discriminate H | repeat split; discriminate].
Qed.

Lemma fold_char_case c :
  lowerChar (if isNameChar (lowerChar c) then lowerChar c else "_"%char)
  = lowerChar (if isNameChar c then c else "_"%char).
Proof. destruct c as [[] [] [] [] [] [] [] []]; reflexivity. Qed.

Lemma plain_char_kept c :
  isPlainChar c = true ->
  isNameChar c = true /\ lowerChar c = c
  /\ Ascii.eqb c "_"%char = false /\ Ascii.eqb c "."%char = false.
Proof.
  destruct c as [[] [] [] [] [] [] [] []]; intros H;
    first [discriminate H | repeat split; reflexivity].
Qed.

Lemma safeName_chars name :
  allChars isFileChar (toLowerCase (replaceUnsafe name)) = true.
Proof.
  unfold toLowerCase, replaceUnsafe.
  induction name as [|c name IH]; simpl; [reflexivity|].
  by rewrite sanitized_char, IH.
Qed.

Lemma allChars_In p s c :
  allChars p s = true -> In c (list_ascii_of_string s) -> p c = true.
Proof.
  induction s as [|x s IH]; simpl; [tauto|].
  intros H. apply andb_true_iff in H as [Hx Hs].
  intros [<-|Hin]; auto.
Qed.

(** *** Queue file names *)

(** X4. The file name of a queue is the sanitized project name, of the same
    length as the project name, followed by [.json]; the sanitized name is
    made of lower-case letters, digits, [-] and [_] only, so it holds no
    path separator and no dot, whatever the project name. *)
Theorem queue_path_is_safe (name : string) :
  exists safe,
    getQueuePath name = safe +:+ ".json"
    /\ String.length safe = String.length name
    /\ allChars isFileChar safe = true
    /\ forall c, In c (list_ascii_of_string safe) ->
         c <> "/"%char /\ c <> "."%char /\ c <> "\"%char.
Proof.
  exists (toLowerCase (replaceUnsafe name)).
  split; [reflexivity|]. split; [|split].
  - unfold toLowerCase, replaceUnsafe. by rewrite !mapChars_length.
  - apply safeName_chars.
  - intros c Hc. apply fileChar_no_separator.
    eapply allChars_In; [apply safeName_chars|exact Hc].
Qed.

Lemma getQueuePath_lower name :
  getQueuePath (toLowerCase name) = getQueuePath name.
Proof.
  unfold getQueuePath. f_equal. unfold toLowerCase, replaceUnsafe.
  induction name as [|c name IH]; simpl; [reflexivity|].
  by rewrite fold_char_case, IH.
Qed.

(** X5. Queues are keyed without regard to case: two project names with
    the same lower-case form have the same queue file, so a task queued
    under one of them is pending under the other. *)
Theorem queue_name_ignores_case
    (a b : string) (now : Z) (rnd path msg sender : string)
    (prio : Priority) (ts : Z) (fs : QueueDir) :
  toLowerCase a = toLowerCase b ->
  getQueuePath a = getQueuePath b
  /\ loadQueue a fs = loadQueue b fs
  /\ getPendingTasks b (fst (enqueueTask now rnd a path msg sender prio ts fs))
     = getPendingTasks b fs
       ++ [mkTask (pretty now +:+ "-" +:+ rnd) a path msg sender ts prio
                  pending].
Proof.
  intros Hab.
  assert (Hpath : getQueuePath a = getQueuePath b).
  { by rewrite <- (getQueuePath_lower a), Hab, getQueuePath_lower. }
  assert (Hload : forall fs', loadQueue a fs' = loadQueue b fs').
  { intros fs'. unfold loadQueue. by rewrite Hpath. }
  split; [exact Hpath|]. split; [apply Hload|].
  unfold getPendingTasks. rewrite <- !Hload.
  unfold enqueueTask. simpl. rewrite loadQueue_saveQueue.
  by rewrite List.filter_app.
Qed.

Lemma queue_name_ignores_case_witness :
  getQueuePath "MyApp" = getQueuePath "myapp"
  /\ length (getPendingTasks "myapp"
               (fst (enqueueTask 1000 "k3j9x1abc" "MyApp" "/unknown" "hello"
                                 "bob" normal 1000 ∅))) = 1%nat.
Proof.
  destruct (queue_name_ignores_case "MyApp" "myapp" 1000 "k3j9x1abc"
              "/unknown" "hello" "bob" normal 1000 ∅ eq_refl)
    as (Hpath & _ & Hpending).
  split; [exact Hpath|]. rewrite Hpending. reflexivity.
Defined.

(** *** Enqueue, acknowledge, clean up *)

(** X1. [enqueueTask] appends one task to the queue of its project: the
    task is pending, carries the fields given and the id made of the clock
    and the random suffix, comes last among the pending tasks, and no other
    queue file changes. *)
Theorem enqueue_then_pending
    (now : Z) (rnd name path msg sender : string) (prio : Priority) (ts : Z)
    (fs : QueueDir) :
  let fs' := fst (enqueueTask now rnd name path msg sender prio ts fs) in
  let task := snd (enqueueTask now rnd name path msg sender prio ts fs) in
  task = mkTask (pretty now +:+ "-" +:+ rnd) name path msg sender ts prio
                pending
  /\ loadQueue name fs' = loadQueue name fs ++ [task]
  /\ getPendingTasks name fs' = getPendingTasks name fs ++ [task]
  /\ (forall file, file <> getQueuePath name -> fs' !! file = fs !! file).
Proof.
  intros fs' task. unfold fs', task, enqueueTask. simpl.
  split; [reflexivity|]. split; [apply loadQueue_saveQueue|]. split.
  - unfold getPendingTasks. rewrite loadQueue_saveQueue.
    by rewrite List.filter_app.
  - intros file Hfile. unfold saveQueue. by rewrite lookup_insert_ne.
Qed.

(** The list after an acknowledgement, task by task. *)
Lemma deliverFirst_lookup taskId queue :
  match deliverFirst taskId queue with
  | Some queue' =>
      forall i t, queue !! i = Some t ->
        queue' !! i
        = Some (if String.eqb (id t) taskId
                   && negb (existsb (fun x => String.eqb (id x) taskId)
                                    (take i queue))
                then withStatus delivered t else t)
  | None => forall t, In t queue -> String.eqb (id t) taskId = false
  end.
Proof.
  induction queue as [|x queue IH]; simpl.
  - intros t [].
  - destruct (String.eqb (id x) taskId) eqn:Hx.
    + intros [|i] t Hi; simpl in *.
      * injection Hi as <-. by rewrite Hx.
      * rewrite Hx. simpl. rewrite andb_false_r. exact Hi.
    + destruct (deliverFirst taskId queue) as [queue'|].
      * intros [|i] t Hi; simpl in *.
        -- injection Hi as <-. by rewrite Hx.
        -- rewrite Hx. simpl. by apply IH.
      * intros t [<-|Hin]; auto.
Qed.

Lemma deliverFirst_length taskId queue queue' :
  deliverFirst taskId queue = Some queue' -> length queue' = length queue.
Proof.
  revert queue'. induction queue as [|x queue IH]; simpl; [discriminate|].
  intros queue'. destruct (String.eqb (id x) taskId).
  - by intros [= <-].
  - destruct (deliverFirst taskId queue) as [q|]; [|discriminate].
    intros [= <-]. simpl. f_equal. by apply IH.
Qed.

Lemma deliverFirst_again taskId queue queue' :
  deliverFirst taskId queue = Some queue' ->
  deliverFirst taskId queue' = Some queue'.
Proof.
  revert queue'. induction queue as [|x queue IH]; simpl; [discriminate|].
  intros queue'. destruct (String.eqb (id x) taskId) eqn:Hx.
  - intros [= <-]. simpl. by rewrite Hx.
  - destruct (deliverFirst taskId queue) as [q|] eqn:E; [|discriminate].
    intros [= <-]. simpl. by rewrite Hx, (IH q eq_refl).
Qed.

(** X2. [markTaskDelivered] changes, in the queue of the project, the
    status of the first task that has the given id to [delivered] and
    nothing else: the queue keeps its length and order, every other task
    (also a later one with the same id) is as before, and no other queue
    file changes.  When no task has the id, nothing is written.  A second
    acknowledgement of the same id changes nothing. *)
Theorem markTaskDelivered_first_only
    (name taskId : string) (fs : QueueDir) :
  let fs' := markTaskDelivered name taskId fs in
  length (loadQueue name fs') = length (loadQueue name fs)
  /\ (forall i t, loadQueue name fs !! i = Some t ->
        loadQueue name fs' !! i
        = Some (if String.eqb (id t) taskId
                   && negb (existsb (fun x => String.eqb (id x) taskId)
                                    (take i (loadQueue name fs)))
                then mkTask (id t) (projectName t) (projectPath t) (message t)
                            (from t) (timestamp t) (priority t) delivered
                else t))
  /\ (deliverFirst taskId (loadQueue name fs) = None -> fs' = fs)
  /\ markTaskDelivered name taskId fs' = fs'
  /\ (forall file, file <> getQueuePath name -> fs' !! file = fs !! file).
Proof.
  intros fs'. unfold fs', markTaskDelivered.
  pose proof (deliverFirst_lookup taskId (loadQueue name fs)) as Hat.
  destruct (deliverFirst taskId (loadQueue name fs)) as [queue'|] eqn:E.
  - rewrite loadQueue_saveQueue.
    split; [by eapply deliverFirst_length|]. split; [exact Hat|].
    split; [discriminate|]. split.
    + rewrite (deliverFirst_again _ _ _ E). unfold saveQueue.
      apply insert_insert_eq.
    + intros file Hfile. unfold saveQueue. by rewrite lookup_insert_ne.
  - split; [reflexivity|]. split; [|split; [done|split; [by rewrite E|done]]].
    intros i t Hi. rewrite Hi. f_equal.
    assert (Hin : In t (loadQueue name fs)).
    { apply list_elem_of_In. by eapply list_elem_of_lookup_2. }
    by rewrite (Hat t Hin).
Qed.

Lemma deliverFirst_last taskId queue t :
  (forall x, In x queue -> id x <> taskId) -> id t = taskId ->
  deliverFirst taskId (queue ++ [t])
  = Some (queue ++ [withStatus delivered t]).
Proof.
  intros Hfresh Ht. induction queue as [|x queue IH]; simpl.
  - rewrite Ht, String.eqb_refl. reflexivity.
  - assert (Hx : String.eqb (id x) taskId = false).
    { apply String.eqb_neq. apply Hfresh. by left. }
    rewrite Hx, IH; [reflexivity|]. intros y Hy. apply Hfresh. by right.
Qed.

(** X3. The round trip of a task.  A task is queued under an id that no
    task of the queue has; it is then the last pending task.  After its
    acknowledgement the pending tasks are those from before it was queued,
    and a cleanup whose cutoff is later than the timestamp of the task
    leaves what it would have left of the queue as it was before: the task
    is gone, and counted among the tasks removed. *)
Theorem task_round_trip
    (setDateBack : Z -> Z -> Z) (now later : Z) (days : option Z)
    (rnd name path msg sender : string) (prio : Priority) (ts : Z)
    (fs : QueueDir) :
  (forall x, In x (loadQueue name fs) -> id x <> pretty now +:+ "-" +:+ rnd) ->
  ts < setDateBack later (match days with Some d => d | None => 7 end) ->
  let task := snd (enqueueTask now rnd name path msg sender prio ts fs) in
  let fs1 := fst (enqueueTask now rnd name path msg sender prio ts fs) in
  let fs2 := markTaskDelivered name (id task) fs1 in
  let fs3 := fst (cleanupOldTasks setDateBack later name days fs2) in
  let cutoff := setDateBack later (match days with Some d => d | None => 7 end) in
  getPendingTasks name fs1 = getPendingTasks name fs ++ [task]
  /\ getPendingTasks name fs2 = getPendingTasks name fs
  /\ loadQueue name fs2
     = loadQueue name fs
       ++ [mkTask (id task) name path msg sender ts prio delivered]
  /\ loadQueue name fs3 = List.filter (keepTask cutoff) (loadQueue name fs)
  /\ snd (cleanupOldTasks setDateBack later name days fs2)
     = S (snd (cleanupOldTasks setDateBack later name days fs)).
Proof.
  intros Hfresh Hold task fs1 fs2 fs3 cutoff.
  assert (H1 : loadQueue name fs1 = loadQueue name fs ++ [task]).
  { apply loadQueue_saveQueue. }
  assert (H2 : loadQueue name fs2
               = loadQueue name fs ++ [withStatus delivered task]).
  { unfold fs2, markTaskDelivered. rewrite H1.
    rewrite (deliverFirst_last (id task) (loadQueue name fs) task
                               Hfresh eq_refl).
    apply loadQueue_saveQueue. }
  assert (Hgone : keepTask cutoff (withStatus delivered task) = false).
  { unfold keepTask, cutoff. simpl.
    destruct (Z.ltb_spec ts
                (setDateBack later (match days with Some d => d | None => 7 end)));
      [reflexivity|lia]. }
  split; [|split; [|split; [exact H2|split]]].
  - unfold getPendingTasks. rewrite H1. by rewrite List.filter_app.
  - unfold getPendingTasks. rewrite H2, List.filter_app. simpl.
    apply app_nil_r.
  - unfold fs3. rewrite cleanup_queue. fold cutoff.
    rewrite H2, List.filter_app. simpl. rewrite Hgone. apply app_nil_r.
  - unfold cleanupOldTasks. simpl. fold cutoff.
    rewrite H2, List.filter_app, !length_app. simpl. rewrite Hgone. simpl.
    pose proof (List.filter_length_le (keepTask cutoff) (loadQueue name fs)).
    lia.
Qed.

Lemma task_round_trip_witness :
  let utc now days := now - days * 86400000 in
  let fs1 := fst (enqueueTask 1000 "k3j9x1abc" "demo" "/tmp/demo" "hello"
                              "bob" normal 1000 ∅) in
  let fs2 := markTaskDelivered "demo" "1000-k3j9x1abc" fs1 in
  getPendingTasks "demo" fs2 = []
  /\ loadQueue "demo" (fst (cleanupOldTasks utc 2000 "demo" (Some 0) fs2)) = [].
Proof.
  intros utc fs1 fs2.
  assert (Hfresh : forall x, In x (loadQueue "demo" ∅) ->
                     id x <> pretty 1000 +:+ "-" +:+ "k3j9x1abc")
    by (intros x []).
  assert (Hold : 1000 < utc 2000 0) by (unfold utc; lia).
  destruct (task_round_trip utc 1000 2000 (Some 0) "k3j9x1abc" "demo"
              "/tmp/demo" "hello" "bob" normal 1000 ∅ Hfresh Hold)
    as (_ & Hpending & _ & Hclean & _).
  split; [exact Hpending|exact Hclean].
Defined.

(** *** The summary *)

Lemma replaceFirst_extension name :
  allChars (fun c => negb (Ascii.eqb c "."%char)) name = true ->
  replaceFirst ".json" "" (name +:+ ".json") = name.
Proof.
  induction name as [|c name IH]; [reflexivity|].
  intros H. simpl in H. apply andb_true_iff in H as [Hc Hname].
  apply negb_true_iff, Ascii.eqb_neq in Hc.
  change (replaceFirst ".json" "" (String c (name +:+ ".json")) = String c name).
  cbn [replaceFirst String.prefix].
  destruct (ascii_dec "." c) as [E|_]; [congruence|].
  cbn [replaceFirst] in IH. by rewrite (IH Hname).
Qed.

Lemma plain_name_kept name :
  allChars isPlainChar name = true ->
  getQueuePath name = name +:+ ".json"
  /\ replaceUnderscores (replaceFirst ".json" "" (name +:+ ".json")) = name.
Proof.
  intros Hplain. split.
  - unfold getQueuePath, toLowerCase, replaceUnsafe. f_equal.
    rewrite (mapChars_id _ name).
    + apply mapChars_id. eapply allChars_impl; [|exact Hplain].
      intros c Hc. apply plain_char_kept in Hc as (_ & -> & _).
      apply Ascii.eqb_refl.
    + eapply allChars_impl; [|exact Hplain].
      intros c Hc. apply plain_char_kept in Hc as (-> & _).
      apply Ascii.eqb_refl.
  - rewrite replaceFirst_extension.
    + apply mapChars_id. eapply allChars_impl; [|exact Hplain].
      intros c Hc. apply plain_char_kept in Hc as (_ & _ & -> & _).
      apply Ascii.eqb_refl.
    + eapply allChars_impl; [|exact Hplain].
      intros c Hc. apply plain_char_kept in Hc as (_ & _ & _ & ->).
      reflexivity.
Qed.

(** X6. A project whose name is made of lower-case letters, digits and
    dashes, and whose queue file holds at least one task, has an entry in
    [getQueueSummary] under its own name, with the number of its pending
    tasks and the length of its queue. *)
Theorem summary_lists_plain_names (name : string) (fs : QueueDir) :
  allChars isPlainChar name = true ->
  loadQueue name fs <> [] ->
  In (mkSummary name (length (getPendingTasks name fs))
                (length (loadQueue name fs)))
     (getQueueSummary fs).
Proof.
  intros Hplain Hsome.
  destruct (plain_name_kept name Hplain) as [Hpath Hback].
  unfold getQueueSummary. apply List.filter_In. split.
  - apply List.in_map_iff. exists name. split; [reflexivity|].
    unfold listProjectsWithQueues. apply List.in_map_iff.
    exists (name +:+ ".json"). split; [exact Hback|].
    apply List.filter_In. split; [|apply endsWith_append].
    unfold readdir. apply list_elem_of_In, list_elem_of_fmap.
    unfold loadQueue in Hsome. rewrite Hpath in Hsome.
    destruct (fs !! (name +:+ ".json")) as [tasks|] eqn:E; [|done].
    exists (name +:+ ".json", tasks). split; [reflexivity|].
    by apply elem_of_map_to_list.
  - simpl. apply Nat.ltb_lt. destruct (loadQueue name fs); [done|simpl; lia].
Qed.

Lemma summary_lists_plain_names_witness :
  let fs := fst (enqueueTask 1000 "k3j9x1abc" "my-app" "/unknown" "hello"
                             "bob" normal 1000 ∅) in
  allChars isPlainChar "my-app" = true
  /\ In (mkSummary "my-app" (length (getPendingTasks "my-app" fs))
                   (length (loadQueue "my-app" fs)))
        (getQueueSummary fs).
Proof.
  intros fs.
  assert (Hplain : allChars isPlainChar "my-app" = true)
    by (vm_compute; reflexivity).
  assert (Hsome : loadQueue "my-app" fs <> [])
    by (vm_compute; discriminate).
  split; [exact Hplain|].
  exact (summary_lists_plain_names "my-app" fs Hplain Hsome).
Defined.

End QueueMore.

(** ** The process supervisor: life cycle and listing *)

Module SpawnerMore.
Import ProjectRegistry ClaudeSpawner Outcomes SpawnerFacts.

(** X7. [spawnClaude] succeeds exactly when no entry exists for the name,
    the registry knows the name and [spawn] hands back a child process
    instead of throwing, with or without a pid.  It then records one entry
    under the name, holding the prompt, the sink and the clock, for a new
    child started in the directory of the project with the prompt as its
    argument, and answers with the pid of that child.  This is also so
    when the child has no pid, because the program or the directory is
    missing: the call still answers [success: true], without a pid, and
    the entry stays until the ['error'] listener deletes it.  In the three
    other cases (an entry exists, the registry does not know the name,
    [spawn] throws) it answers [success: false], without a pid, and leaves
    the state as it was. *)
Theorem spawn_outcome
    (find : string -> option Project) (os : SpawnOutcome) (now : Z)
    (name : string) (prompt : option string) (sink : option OutputSink)
    (sp : Spawner) :
  let sp' := fst (spawnClaude find os now name prompt sink sp) in
  let result := snd (spawnClaude find os now name prompt sink sp) in
  (success result = true <->
     isClaudeRunning name sp = false
     /\ (exists project, find name = Some project)
     /\ (exists p, os = Launched p))
  /\ (success result = false ->
        sp' = sp /\ pid result = None
        /\ (isClaudeRunning name sp = true
            /\ message result = AlreadyRunning name
            \/ isClaudeRunning name sp = false /\ find name = None
               /\ message result = NotInRegistry name
            \/ isClaudeRunning name sp = false
               /\ exists e, os = SpawnThrew e
                            /\ message result = FailedToSpawn e))
  /\ (forall project p,
        isClaudeRunning name sp = false -> find name = Some project ->
        os = Launched p ->
        activeProcesses sp' !! name
        = Some (mkSpawned name (length (children sp)) now prompt sink)
        /\ children sp'
           = children sp ++ [mkChild (path project) (promptArgs prompt) p]
        /\ pid result = p
        /\ forall other, other <> name ->
             activeProcesses sp' !! other = activeProcesses sp !! other)
  /\ (forall project,
        isClaudeRunning name sp = false -> find name = Some project ->
        os = Launched None ->
        success result = true /\ pid result = None
        /\ isClaudeRunning name sp' = true
        /\ pidOf sp' (length (children sp)) = None
        /\ activeProcesses (onError name sp') = activeProcesses sp).
Proof.
  intros sp' result. unfold sp', result, spawnClaude.
  destruct (isClaudeRunning name sp) eqn:Hrun; simpl.
  { split; [|split; [|split; intros; discriminate]].
    - split; [discriminate|]. intros [? _]; discriminate.
    - intros _. repeat split. by left. }
  destruct (find name) as [project|] eqn:Hfind; simpl.
  2: { split; [|split; [|split; intros; discriminate]].
       - split; [discriminate|]. intros (_ & [? ?] & _); discriminate.
       - intros _. repeat split. right. by left. }
  destruct os as [p|e]; simpl.
  2: { split; [|split; [|split; intros; discriminate]].
       - split; [discriminate|]. intros (_ & _ & [? ?]); discriminate.
       - intros _. repeat split. right. right. split; [done|]. by exists e. }
  split; [|split; [discriminate|split]].
  - split; [|done]. intros _. eauto.
  - intros project' p' _ [= <-] [= <-].
    rewrite lookup_insert_eq. repeat split; try done.
    intros other Hother. by rewrite lookup_insert_ne.
  - intros project' _ _ [= ->]. repeat split.
    + unfold isClaudeRunning. simpl. by rewrite lookup_insert_eq.
    + unfold pidOf. simpl.
      by rewrite lookup_app_r, Nat.sub_diag by lia.
    + simpl. apply delete_insert_id.
      unfold isClaudeRunning in Hrun.
      by destruct (activeProcesses sp !! name).
Qed.

(** X8. The life cycle of a worker.  [killClaude] for a name without an
    entry fails and changes nothing.  For a name with an entry it succeeds
    and removes that entry and no other; the children started are as
    before; a second [killClaude] then fails; and [spawnClaude] for the name
    succeeds again as soon as the registry knows the name and the operating
    system starts the child.  The ['exit'] and ['error'] listeners remove
    the entry in the same way. *)
Theorem kill_then_respawn
    (find : string -> option Project) (now : Z) (name : string)
    (prompt : option string) (sink : option OutputSink) (p : option Z)
    (project : Project) (sp : Spawner) :
  isClaudeRunning name sp = true ->
  find name = Some project ->
  let sp1 := fst (killClaude name sp) in
  snd (killClaude name sp) = mkResult true (Terminated name) None
  /\ isClaudeRunning name sp1 = false
  /\ (forall other, other <> name ->
        activeProcesses sp1 !! other = activeProcesses sp !! other)
  /\ children sp1 = children sp
  /\ killClaude name sp1 = (sp1, mkResult false (NoActiveProcess name) None)
  /\ onExit name sp = sp1 /\ onError name sp = sp1
  /\ success (snd (spawnClaude find (Launched p) now name prompt sink sp1))
     = true
  /\ isClaudeRunning name
       (fst (spawnClaude find (Launched p) now name prompt sink sp1)) = true.
Proof.
  intros Hrun Hfind sp1.
  assert (Hkill : killClaude name sp
    = (mkSpawner (delete name (activeProcesses sp)) (children sp),
       mkResult true (Terminated name) None)).
  { unfold killClaude. unfold isClaudeRunning in Hrun.
    by destruct (activeProcesses sp !! name). }
  unfold sp1. rewrite Hkill. simpl.
  assert (Hgone : isClaudeRunning name
            (mkSpawner (delete name (activeProcesses sp)) (children sp))
          = false).
  { unfold isClaudeRunning. simpl. by rewrite lookup_delete_eq. }
  split; [reflexivity|]. split; [exact Hgone|]. split.
  { intros other Hother. by rewrite lookup_delete_ne. }
  split; [reflexivity|]. split.
  { unfold killClaude. simpl. by rewrite lookup_delete_eq. }
  split; [reflexivity|]. split; [reflexivity|].
  unfold spawnClaude. rewrite Hgone, Hfind. simpl. split; [reflexivity|].
  unfold isClaudeRunning. simpl. by rewrite lookup_insert_eq.
Qed.

Lemma kill_then_respawn_witness :
  Scenarios.demoSpawner <> fst (killClaude "demo" Scenarios.demoSpawner)
  /\ isClaudeRunning "demo" (fst (killClaude "demo" Scenarios.demoSpawner))
     = false
  /\ success
       (snd (spawnClaude Scenarios.demoRegistry (Launched (Some 4300)) 3000
               "demo" None None
               (fst (killClaude "demo" Scenarios.demoSpawner)))) = true.
Proof.
  destruct (kill_then_respawn Scenarios.demoRegistry 3000 "demo" None None
              (Some 4300) (mkProject "demo" "/tmp/demo" true)
              Scenarios.demoSpawner eq_refl eq_refl)
    as (_ & Hgone & _ & _ & _ & _ & _ & Hok & _).
  split; [|split; [exact Hgone|exact Hok]].
  intros Heq. rewrite <- Heq in Hgone. discriminate Hgone.
Defined.

Lemma kill_without_entry name sp :
  isClaudeRunning name sp = false ->
  killClaude name sp = (sp, mkResult false (NoActiveProcess name) None).
Proof.
  unfold isClaudeRunning, killClaude.
  by destruct (activeProcesses sp !! name).
Qed.

(** *** The bookkeeping invariant *)

Lemma SpawnerOk_empty : SpawnerOk noProcesses.
Proof.
  constructor; simpl; intros;
    match goal with H : ∅ !! _ = Some _ |- _ => by rewrite lookup_empty in H end.
Qed.

Lemma SpawnerOk_delete name sp :
  SpawnerOk sp ->
  SpawnerOk (mkSpawner (delete name (activeProcesses sp)) (children sp)).
Proof.
  intros [Hname Hchild Hhandle]. constructor; simpl.
  - intros n e He. apply lookup_delete_Some in He as [_ He]. eauto.
  - intros n e He. apply lookup_delete_Some in He as [_ He]. eauto.
  - intros n n' e e' He He'.
    apply lookup_delete_Some in He as [_ He].
    apply lookup_delete_Some in He' as [_ He']. eauto.
Qed.

Lemma SpawnerOk_spawn find os now name prompt sink sp :
  SpawnerOk sp -> SpawnerOk (fst (spawnClaude find os now name prompt sink sp)).
Proof.
  intros Hok. unfold spawnClaude.
  destruct (isClaudeRunning name sp); [assumption|].
  destruct (find name) as [project|]; [|assumption].
  destruct os as [p|e]; [|assumption]. simpl.
  destruct Hok as [Hname Hchild Hhandle].
  assert (Hlt : forall n e, activeProcesses sp !! n = Some e ->
                  (process e < length (children sp))%nat).
  { intros n e He. destruct (Hchild n e He) as (c & Hc & _).
    by apply lookup_lt_Some in Hc. }
  constructor; simpl.
  - intros n e He. apply lookup_insert_Some in He as [[<- <-]|[_ He]]; eauto.
  - intros n e He. apply lookup_insert_Some in He as [[<- <-]|[_ He]]; simpl.
    + eexists. split.
      * rewrite lookup_app_r by lia. by rewrite Nat.sub_diag.
      * reflexivity.
    + destruct (Hchild n e He) as (c & Hc & Hargs). exists c.
      split; [by apply lookup_app_l_Some|exact Hargs].
  - intros n n' e e' He He' Heq.
    apply lookup_insert_Some in He as [[<- <-]|[Hn He]];
      apply lookup_insert_Some in He' as [[<- <-]|[Hn' He']]; simpl in *.
    + reflexivity.
    + apply Hlt in He'. lia.
    + apply Hlt in He. lia.
    + eauto.
Qed.

End SpawnerMore.

(** ** The server: workers, sessions and the inbox *)

Module BridgeMore.
Import JsString ProjectRegistry Bridge MapFacts Outcomes Scenarios Invariants
  SpawnerMore.

(** *** The supervisor inside the server *)

Lemma routeMessage_spawner env sender text st :
  spawner (fst (routeMessage env sender text st)) = spawner st
  \/ exists find os now name prompt sink,
       spawner (fst (routeMessage env sender text st))
       = fst (ClaudeSpawner.spawnClaude find os now name prompt sink
                                        (spawner st)).
Proof.
  unfold routeMessage.
  destruct (projectMatch text) as [[target payload]|].
  2: { left. by repeat case_match. }
  unfold routeToProject.
  set (st1 := match findSession target (activeSessions st) with
              | Some s => _ | None => st end).
  assert (Hsp : spawner st1 = spawner st).
  { unfold st1. by repeat case_match. }
  assert (Hroute : spawner (fst (spawnOrQueue env sender target payload st1))
                   = spawner st1
                   \/ exists find os now name prompt sink,
                        spawner (fst (spawnOrQueue env sender target payload st1))
                        = fst (ClaudeSpawner.spawnClaude find os now name
                                 prompt sink (spawner st1))).
  { unfold spawnOrQueue.
    destruct (findProject env target) as [project|]; [|by left].
    destruct (autoSpawn project); [|by left].
    destruct (ClaudeSpawner.spawnClaude _ _ _ _ _ _ _) as [sp result] eqn:E.
    right. do 6 eexists. rewrite E.
    by destruct (ClaudeSpawner.success result). }
  rewrite Hsp in Hroute.
  destruct (findSession target (activeSessions st)) as [s|];
    [destruct (ClaudeSpawner.isClaudeRunning target (spawner st));
       [by left|exact Hroute]|exact Hroute].
Qed.

Lemma SpawnerOk_step e st :
  SpawnerOk (spawner st) -> SpawnerOk (spawner (step e st)).
Proof.
  intros Hok.
  destruct e as [env sender text|now sid pn pp|now sid|now|now msg osid|count
                |now question ms|h|env pn prompt|pn|pn|pn
                |now rnd pn pp msg sender prio|pn taskId|chat|]; simpl;
    try assumption.
  - unfold onText.
    assert (Hroute : SpawnerOk (spawner (fst (routeMessage env sender text st)))).
    { destruct (routeMessage_spawner env sender text st)
        as [->|(f & o & n & nm & pr & sk & ->)];
        [assumption|by apply SpawnerOk_spawn]. }
    destruct (pendingQuestions st) as [|[k q] rest]; [exact Hroute|].
    destruct (negb (String.eqb k "")); [assumption|exact Hroute].
  - unfold register. by repeat case_match.
  - unfold heartbeat. by repeat case_match.
  - unfold notify. by repeat case_match.
  - unfold messagesRead. by destruct (markLoop _ _ _).
  - unfold ask. by repeat case_match.
  - unfold onTimeout. by case_match.
  - by apply SpawnerOk_spawn.
  - unfold ClaudeSpawner.killClaude.
    destruct (ClaudeSpawner.activeProcesses (spawner st) !! pn);
      [by apply SpawnerOk_delete|assumption].
  - by apply SpawnerOk_delete.
  - by apply SpawnerOk_delete.
  - by case_match.
  - by case_match.
Qed.

Lemma reachable_spawner_ok (st : State) :
  Reachable st -> SpawnerOk (spawner st).
Proof.
  induction 1 as [chat enabled|e st Hreach IH].
  - apply SpawnerOk_empty.
  - by apply SpawnerOk_step.
Qed.

(** X9. In every state the server reaches, each entry of [activeProcesses]
    is stored under its own project name and its handle is that of a child
    that was started with the prompt of the entry as its argument; no two
    entries share a child. *)
Theorem spawner_bookkeeping_ok (st : State) :
  Reachable st ->
  (forall name e,
     ClaudeSpawner.activeProcesses (spawner st) !! name = Some e ->
     ClaudeSpawner.projectName e = name
     /\ exists child,
          ClaudeSpawner.children (spawner st) !! ClaudeSpawner.process e
          = Some child
          /\ ClaudeSpawner.args child
             = ClaudeSpawner.promptArgs (ClaudeSpawner.initialPrompt e))
  /\ (forall name name' e e',
        ClaudeSpawner.activeProcesses (spawner st) !! name = Some e ->
        ClaudeSpawner.activeProcesses (spawner st) !! name' = Some e' ->
        ClaudeSpawner.process e = ClaudeSpawner.process e' -> name = name').
Proof.
  intros Hreach. destruct (reachable_spawner_ok st Hreach) as [Hn Hc Hh].
  split; [|exact Hh]. intros name e He. split; [by apply Hn|by eapply Hc].
Qed.

Lemma spawner_bookkeeping_ok_witness :
  ClaudeSpawner.activeProcesses (spawner twoWorkers) !! "Beta"
  = Some (ClaudeSpawner.mkSpawned "Beta" 0 2000 None
            (Some (ClaudeSpawner.TelegramSink "Beta")))
  /\ exists child,
       ClaudeSpawner.children (spawner twoWorkers) !! 0%nat = Some child
       /\ ClaudeSpawner.args child = [].
Proof.
  assert (Hreach : Reachable twoWorkers)
    by (repeat apply reach_step; apply reach_initial).
  destruct (spawner_bookkeeping_ok twoWorkers Hreach) as [Hentry _].
  split; [reflexivity|].
  destruct (Hentry "Beta" _ eq_refl) as [_ Hchild]. exact Hchild.
Defined.

Lemma map_fmap {A B} (f : A -> B) (l : list A) : List.map f l = f <$> l.
Proof. induction l as [|a l IH]; simpl; [reflexivity|]. by rewrite IH. Qed.

Lemma rows_In now sp row :
  In row (ClaudeSpawner.listSpawnedProcesses now sp) <->
  exists name e,
    ClaudeSpawner.activeProcesses sp !! name = Some e
    /\ row = ClaudeSpawner.mkRow (ClaudeSpawner.projectName e)
               (ClaudeSpawner.pidOf sp (ClaudeSpawner.process e))
               (ClaudeSpawner.startTime e) (ClaudeSpawner.initialPrompt e)
               ((now - ClaudeSpawner.startTime e) / 60000).
Proof.
  unfold ClaudeSpawner.listSpawnedProcesses.
  rewrite List.in_map_iff. split.
  - intros (e & <- & He). apply List.in_map_iff in He as ([name e'] & <- & He).
    apply list_elem_of_In, elem_of_map_to_list in He. eauto.
  - intros (name & e & He & ->). exists e. split; [reflexivity|].
    apply List.in_map_iff. exists (name, e). split; [reflexivity|].
    by apply list_elem_of_In, elem_of_map_to_list.
Qed.

(** X10. In every state the server reaches, [listSpawnedProcesses] has one
    row for each project with a running worker and no other row: the names
    of the rows are distinct and are exactly the names for which
    [isClaudeRunning] holds.  [GET /spawned/:projectName] therefore finds a
    row, with that name and the pid of the child started for it, whenever
    it answers [running: true], and answers [running: false] without a
    process otherwise. *)
Theorem spawned_listing_matches (now : Z) (name : string) (st : State) :
  Reachable st ->
  let rows := ClaudeSpawner.listSpawnedProcesses now (spawner st) in
  (ClaudeSpawner.isClaudeRunning name (spawner st) = true <->
     exists row, In row rows /\ ClaudeSpawner.rowName row = name)
  /\ NoDup (List.map ClaudeSpawner.rowName rows)
  /\ length rows = size (ClaudeSpawner.activeProcesses (spawner st))
  /\ match ClaudeSpawner.activeProcesses (spawner st) !! name with
     | Some e =>
         spawnedStatus now name st
         = (true,
            Some (ClaudeSpawner.mkRow name
                    (ClaudeSpawner.pidOf (spawner st) (ClaudeSpawner.process e))
                    (ClaudeSpawner.startTime e) (ClaudeSpawner.initialPrompt e)
                    ((now - ClaudeSpawner.startTime e) / 60000)))
     | None => spawnedStatus now name st = (false, None)
     end.
Proof.
  intros Hreach rows.
  destruct (reachable_spawner_ok st Hreach) as [Hname _ _].
  assert (Hrun : ClaudeSpawner.isClaudeRunning name (spawner st) = true <->
                 exists row, In row rows /\ ClaudeSpawner.rowName row = name).
  { rewrite SpawnerFacts.isClaudeRunning_true. split.
    - intros [e He]. eexists. split; [apply rows_In; eauto|]. simpl. eauto.
    - intros (row & Hin & Hrow). apply rows_In in Hin as (n & e & He & ->).
      simpl in Hrow. rewrite (Hname n e He) in Hrow. subst n. eauto. }
  assert (Hnames : List.map ClaudeSpawner.rowName rows
                   = (map_to_list
                        (ClaudeSpawner.activeProcesses (spawner st))).*1).
  { unfold rows, ClaudeSpawner.listSpawnedProcesses.
    rewrite !List.map_map, <- (map_fmap fst). apply List.map_ext_in.
    intros [n e] Hin. simpl.
    apply list_elem_of_In, elem_of_map_to_list in Hin. eauto. }
  split; [exact Hrun|]. split; [|split].
  - rewrite Hnames. apply NoDup_fst_map_to_list.
  - unfold rows, ClaudeSpawner.listSpawnedProcesses.
    rewrite !List.length_map. apply length_map_to_list.
  - unfold spawnedStatus, ClaudeSpawner.isClaudeRunning.
    destruct (ClaudeSpawner.activeProcesses (spawner st) !! name)
      as [e|] eqn:He; [|reflexivity].
    f_equal. fold rows.
    destruct (List.find _ rows) as [row|] eqn:Hfind.
    + apply List.find_some in Hfind as [Hin Hrow].
      apply String.eqb_eq in Hrow.
      apply rows_In in Hin as (n & e' & He' & ->). simpl in Hrow.
      rewrite (Hname n e' He') in Hrow. subst n.
      rewrite He in He'. injection He' as <-.
      by rewrite (Hname name e He).
    + exfalso.
      assert (Hin : In (ClaudeSpawner.mkRow (ClaudeSpawner.projectName e)
                  (ClaudeSpawner.pidOf (spawner st) (ClaudeSpawner.process e))
                  (ClaudeSpawner.startTime e) (ClaudeSpawner.initialPrompt e)
                  ((now - ClaudeSpawner.startTime e) / 60000)) rows).
      { apply rows_In. eauto. }
      pose proof (List.find_none _ _ Hfind _ Hin) as Hno. simpl in Hno.
      rewrite (Hname name e He), String.eqb_refl in Hno. discriminate.
Qed.

Lemma twoWorkers_reachable : Reachable twoWorkers.
Proof. repeat apply reach_step. apply reach_initial. Qed.

Lemma spawned_listing_matches_witness :
  spawnedStatus 61000 "Beta" twoWorkers
  = (true, Some (ClaudeSpawner.mkRow "Beta" (Some 4242) 2000 None 0))
  /\ spawnedStatus 61000 "Alpha" twoWorkers = (false, None).
Proof.
  pose proof (spawned_listing_matches 61000 "Beta" twoWorkers
                twoWorkers_reachable) as (_ & _ & _ & Hb).
  pose proof (spawned_listing_matches 61000 "Alpha" twoWorkers
                twoWorkers_reachable) as (_ & _ & _ & Ha).
  split; [exact Hb|exact Ha].
Defined.

(** *** Sessions: heartbeats and sweeps *)

Lemma NoDup_filter_entries {V} (f : string * V -> bool) (m : list (string * V)) :
  NoDup (mapKeys m) -> NoDup (mapKeys (List.filter f m)).
Proof.
  induction m as [|[k v] m IH]; simpl; [constructor|]. intros Hnd.
  apply NoDup_cons in Hnd as [Hk Hnd]. destruct (f (k, v)); simpl; auto.
  constructor; auto. intros Hin. apply Hk.
  apply list_elem_of_In in Hin. apply list_elem_of_In.
  apply List.in_map_iff in Hin as [e [He Hin]].
  apply List.filter_In in Hin as [Hin _]. apply List.in_map_iff. eauto.
Qed.

(** What a sweep does to the entry of a key. *)
Lemma sweep_lookup now st :
  NoDup (mapKeys (activeSessions st)) ->
  (forall k s, In (k, s) (activeSessions st) ->
     SESSION_TIMEOUT < now - lastActivity s ->
     mapGet k (activeSessions (sweep now st)) = None)
  /\ (forall k s, In (k, s) (activeSessions st) ->
        now - lastActivity s <= SESSION_TIMEOUT ->
        mapGet k (activeSessions (sweep now st)) = Some s).
Proof.
  intros Hnd.
  assert (Hsw : activeSessions (sweep now st)
                = List.filter (fun e => negb (expired now (snd e)))
                              (activeSessions st)).
  { unfold sweep; simpl. by apply SessionFacts.sweep_filter. }
  split; intros k s Hin Hidle.
  - apply mapGet_None_keys. rewrite Hsw. intros Hk.
    apply List.in_map_iff in Hk as [[k' s'] [Hk' Hin']]. simpl in Hk'; subst k'.
    apply List.filter_In in Hin' as [Hin' Hexp]. simpl in Hexp.
    assert (s' = s).
    { apply (In_mapGet _ _ _ Hnd) in Hin. apply (In_mapGet _ _ _ Hnd) in Hin'.
      congruence. }
    subst s'. apply negb_true_iff in Hexp. unfold expired in Hexp.
    apply Z.ltb_ge in Hexp. lia.
  - apply In_mapGet.
    + rewrite Hsw. by apply NoDup_filter_entries.
    + rewrite Hsw. apply List.filter_In. split; [exact Hin|]. simpl.
      apply negb_true_iff. unfold expired. by apply Z.ltb_ge.
Qed.

(** X11. [POST /session/heartbeat] answers 400 for an empty session id and
    404 for an id that is not registered, and changes nothing in either
    case.  For a registered id it answers success, sets [lastActivity] of
    that session to [now] and its [status] to [active], keeps its
    [projectName], [projectPath] and [startTime] and its place in the map,
    and leaves every other session alone. *)
Theorem heartbeat_outcome (now : Z) (sid : string) (st : State) :
  let st' := fst (heartbeat now sid st) in
  (sid = "" -> heartbeat now sid st = (st, failed 400))
  /\ (sid <> "" -> mapGet sid (activeSessions st) = None ->
        heartbeat now sid st = (st, failed 404))
  /\ (forall s, sid <> "" -> mapGet sid (activeSessions st) = Some s ->
        snd (heartbeat now sid st) = ok tt
        /\ mapGet sid (activeSessions st')
           = Some (mkSession (id s) (projectName s) (projectPath s)
                             (startTime s) now active)
        /\ mapKeys (activeSessions st') = mapKeys (activeSessions st)
        /\ st' = setSessions (activeSessions st') st)
  /\ (forall other, other <> sid ->
        mapGet other (activeSessions st') = mapGet other (activeSessions st)).
Proof.
  intros st'. unfold st', heartbeat. split; [|split; [|split]].
  - intros ->. reflexivity.
  - intros Hsid Hnone. by rewrite (SessionFacts.eqb_empty_false _ Hsid), Hnone.
  - intros s Hsid Hs. rewrite (SessionFacts.eqb_empty_false _ Hsid), Hs. simpl.
    split; [reflexivity|]. split; [apply mapGet_mapSet_eq|].
    split; [|reflexivity]. apply mapKeys_mapSet_present.
    apply mapGet_In in Hs. apply (List.in_map fst) in Hs. exact Hs.
  - intros other Hother. destruct (String.eqb sid ""); [reflexivity|].
    destruct (mapGet sid (activeSessions st)); [|reflexivity]. simpl.
    apply mapGet_mapSet_ne. congruence.
Qed.

(** X12. A heartbeat protects a session for 30 minutes exactly: after a
    heartbeat at [now], a sweep at [later] keeps the session, as refreshed,
    when [later - now] is at most 30 minutes, and deletes it when it is
    more. *)
Theorem heartbeat_then_sweep
    (now later : Z) (sid : string) (s : ClaudeSession) (st : State) :
  NoDup (mapKeys (activeSessions st)) ->
  sid <> "" -> mapGet sid (activeSessions st) = Some s ->
  let swept := sweep later (fst (heartbeat now sid st)) in
  (later - now <= 30 * 60 * 1000 ->
     mapGet sid (activeSessions swept)
     = Some (mkSession (id s) (projectName s) (projectPath s) (startTime s)
                       now active))
  /\ (30 * 60 * 1000 < later - now ->
        mapGet sid (activeSessions swept) = None).
Proof.
  intros Hnd Hsid Hs swept.
  set (st' := fst (heartbeat now sid st)).
  assert (Hst' : activeSessions st'
                 = mapSet sid (refresh now s) (activeSessions st)).
  { unfold st', heartbeat.
    by rewrite (SessionFacts.eqb_empty_false _ Hsid), Hs. }
  assert (Hnd' : NoDup (mapKeys (activeSessions st'))).
  { rewrite Hst'. by apply NoDup_mapSet. }
  assert (Hin : In (sid, refresh now s) (activeSessions st')).
  { apply mapGet_In. rewrite Hst'. apply mapGet_mapSet_eq. }
  destruct (sweep_lookup later st' Hnd') as [Hgone Hkept].
  split; intros Hidle.
  - apply (Hkept sid (refresh now s) Hin). simpl. unfold SESSION_TIMEOUT. lia.
  - apply (Hgone sid (refresh now s) Hin). simpl. unfold SESSION_TIMEOUT. lia.
Qed.

Lemma twoSessions_keys : NoDup (mapKeys (activeSessions twoSessions)).
Proof.
  simpl. apply NoDup_cons. split; [|apply NoDup_singleton].
  intros H%list_elem_of_In. destruct H as [H|[]]. discriminate.
Qed.

Lemma heartbeat_then_sweep_witness :
  mapGet "old"
    (activeSessions (sweep 3000000 (fst (heartbeat 2000000 "old" twoSessions))))
  = Some (mkSession "old" "Foo" "/work/foo" 0 2000000 active)
  /\ mapGet "old"
       (activeSessions (sweep 3800001 (fst (heartbeat 2000000 "old" twoSessions))))
     = None.
Proof.
  destruct (heartbeat_then_sweep 2000000 3000000 "old"
              (mkSession "old" "Foo" "/work/foo" 0 0 active) twoSessions
              twoSessions_keys ltac:(discriminate) eq_refl) as [Hkept _].
  destruct (heartbeat_then_sweep 2000000 3800001 "old"
              (mkSession "old" "Foo" "/work/foo" 0 0 active) twoSessions
              twoSessions_keys ltac:(discriminate) eq_refl) as [_ Hgone].
  split; [apply Hkept; lia|apply Hgone; lia].
Defined.

Lemma filter_filter_implied {A} (f g : A -> bool) (l : list A) :
  (forall a, g a = true -> f a = true) ->
  List.filter g (List.filter f l) = List.filter g l.
Proof.
  intros Hgf. induction l as [|a l IH]; simpl; [reflexivity|].
  destruct (f a) eqn:Hf; simpl.
  - by rewrite IH.
  - destruct (g a) eqn:Hg; [|exact IH]. rewrite (Hgf a Hg) in Hf. discriminate.
Qed.

(** X17. A sweep subsumes every earlier one: sweeping at [t1] and then at
    a later instant [t2] leaves the state that sweeping at [t2] alone
    leaves; in particular a sweep repeated at the same instant changes
    nothing more. *)
Theorem later_sweep_subsumes (t1 t2 : Z) (st : State) :
  NoDup (mapKeys (activeSessions st)) -> t1 <= t2 ->
  sweep t2 (sweep t1 st) = sweep t2 st
  /\ sweep t2 (sweep t2 st) = sweep t2 st.
Proof.
  intros Hnd Hle.
  assert (Hgen : forall a b, a <= b -> sweep b (sweep a st) = sweep b st).
  { intros a b Hab. unfold sweep. rewrite SessionFacts.setSessions_twice.
    change (activeSessions (setSessions (sweepSessions a (activeSessions st))
                                        st))
      with (sweepSessions a (activeSessions st)).
    f_equal.
    rewrite (SessionFacts.sweep_filter a _ Hnd).
    rewrite SessionFacts.sweep_filter by (by apply NoDup_filter_entries).
    rewrite (SessionFacts.sweep_filter b _ Hnd).
    apply filter_filter_implied. intros [k s]. simpl. unfold expired.
    rewrite !negb_true_iff, !Z.ltb_ge. lia. }
  split; [by apply Hgen|apply Hgen; lia].
Qed.

Lemma later_sweep_subsumes_witness :
  sweep 1900000 (sweep 1800001 twoSessions) = sweep 1900000 twoSessions.
Proof.
  apply (later_sweep_subsumes 1800001 1900000 twoSessions twoSessions_keys).
  lia.
Defined.

(** *** The inbox *)

Lemma skipn_unread toMark queue : forall marked,
  List.filter (fun m => negb (read m)) (fst (markLoop toMark marked queue))
  = List.skipn (Z.to_nat (snd (markLoop toMark marked queue) - marked))
               (List.filter (fun m => negb (read m)) queue).
Proof.
  induction queue as [|msg rest IH]; intros marked; simpl.
  - by rewrite Z.sub_diag.
  - destruct (read msg) eqn:Hread; simpl.
    + specialize (IH marked).
      destruct (markLoop toMark marked rest) as [rest' n]. simpl in *.
      by rewrite Hread.
    + destruct (Z.ltb_spec marked toMark) as [Hlt|Hge].
      * specialize (IH (marked + 1)).
        pose proof (InboxFacts.markLoop_spec toMark rest (marked + 1))
          as (_ & Hn & _).
        destruct (markLoop toMark (marked + 1) rest) as [rest' n].
        simpl in *. rewrite IH.
        pose proof (InboxFacts.unreadCount_nonneg rest).
        replace (Z.to_nat (n - marked)) with (S (Z.to_nat (n - (marked + 1))))
          by lia.
        reflexivity.
      * specialize (IH marked).
        pose proof (InboxFacts.markLoop_spec toMark rest marked) as (_ & Hn & _).
        destruct (markLoop toMark marked rest) as [rest' n].
        simpl in *. rewrite Hread. simpl. rewrite IH.
        replace (Z.to_nat (n - marked)) with 0%nat by lia.
        reflexivity.
Qed.

(** X13. After [POST /messages/read] has answered [markedAsRead: n],
    [GET /messages] returns the messages it returned before without the
    first [n] of them, whatever the count requested. *)
Theorem unread_after_read (count : option Z) (st : State) :
  getMessages (fst (messagesRead count st))
  = List.skipn (Z.to_nat (snd (messagesRead count st))) (getMessages st).
Proof.
  unfold getMessages, messagesRead.
  set (toMark := match count with Some c => _ | None => _ end).
  pose proof (skipn_unread toMark (messageQueue st) 0) as H.
  destruct (markLoop toMark 0 (messageQueue st)) as [queue' n]. simpl in *.
  by rewrite Z.sub_0_r in H.
Qed.

Lemma step_inbox e st :
  messageQueue (step e st) = messageQueue st
  \/ (exists m, messageQueue (step e st) = messageQueue st ++ [m])
  \/ exists toMark, messageQueue (step e st)
                    = fst (markLoop toMark 0 (messageQueue st)).
Proof.
  destruct e as [env sender text|now sid pn pp|now sid|now|now msg osid|count
                |now question ms|h|env pn prompt|pn|pn|pn
                |now rnd pn pp msg sender prio|pn taskId|chat|]; simpl;
    try (by left).
  - unfold onText, routeMessage, routeToProject, spawnOrQueue, enqueue,
      pushMessage.
    repeat case_match; simpl; eauto.
  - left. unfold register. by repeat case_match.
  - left. unfold heartbeat. by repeat case_match.
  - left. unfold notify. by repeat case_match.
  - right. right. unfold messagesRead.
    match goal with
    | |- context [markLoop ?t 0 _] =>
        exists t; by destruct (markLoop t 0 (messageQueue st))
    end.
  - left. unfold ask. by repeat case_match.
  - left. unfold onTimeout. by case_match.
  - left. by case_match.
  - left. by case_match.
Qed.

Lemma sameMessage_refl m : sameMessage m m.
Proof. repeat split; auto. Qed.

Lemma step_keeps_messages e st i m :
  messageQueue st !! i = Some m ->
  exists m', messageQueue (step e st) !! i = Some m' /\ sameMessage m m'.
Proof.
  intros Hi. destruct (step_inbox e st) as [H|[[x H]|[toMark H]]]; rewrite H.
  - exists m. split; [exact Hi|apply sameMessage_refl].
  - exists m. split; [by apply lookup_app_l_Some|apply sameMessage_refl].
  - pose proof (InboxFacts.markLoop_spec toMark (messageQueue st) 0)
      as (_ & _ & _ & Hat).
    rewrite (Hat i m Hi). eexists. split; [reflexivity|].
    destruct (negb (read m) && _); [|apply sameMessage_refl].
    repeat split; auto.
Qed.

(** X15. The inbox only grows.  Whatever events follow, a message that is
    in [messageQueue] stays at its index, with its sender, text, timestamp
    and target session; the only thing that can change is its [read] flag,
    from unread to read, and never back.  Nothing is ever removed from the
    inbox. *)
Theorem inbox_append_only (events : list Event) (st : State) (i : nat)
    (m : QueuedMessage) :
  messageQueue st !! i = Some m ->
  (exists m', messageQueue (run events st) !! i = Some m' /\ sameMessage m m')
  /\ (length (messageQueue st) <= length (messageQueue (run events st)))%nat.
Proof.
  revert st m. induction events as [|e events IH]; intros st m Hi; simpl.
  - split; [|lia]. exists m. split; [exact Hi|apply sameMessage_refl].
  - destruct (step_keeps_messages e st i m Hi) as (m1 & H1 & Hsame1).
    destruct (IH (step e st) m1 H1) as [(m2 & H2 & Hsame2) Hlen].
    split.
    + exists m2. split; [exact H2|].
      destruct Hsame1 as (? & ? & ? & ? & ?), Hsame2 as (? & ? & ? & ? & ?).
      repeat split; try congruence. auto.
    + etrans; [|exact Hlen].
      destruct (step_inbox e st) as [H|[[x H]|[toMark H]]]; rewrite H.
      * lia.
      * rewrite length_app. simpl. lia.
      * pose proof (InboxFacts.markLoop_spec toMark (messageQueue st) 0)
          as (Hl & _). simpl in Hl. lia.
Qed.

Lemma inbox_append_only_witness :
  exists m',
    messageQueue
      (run [MessagesRead (Some 1); Text quietEnv "bob" "more"; Sweep 5000]
           inbox3) !! 0%nat = Some m'
    /\ message m' = "one" /\ read m' = true.
Proof.
  destruct (inbox_append_only
              [MessagesRead (Some 1); Text quietEnv "bob" "more"; Sweep 5000]
              inbox3 0%nat (mkMessage "bob" "one" 1 false None) eq_refl)
    as [(m' & Hm' & Hsame) _].
  exists m'. split; [exact Hm'|].
  destruct Hsame as (_ & Hmsg & _). split; [exact Hmsg|].
  vm_compute in Hm'. by injection Hm' as <-.
Defined.

(** *** Questions never hang *)

(** What an event does to the questions: nothing, a new question, or the
    retirement of an armed timer with the entry of its question. *)
Lemma step_questions e st :
  QuestionsOk st ->
  questionsOf (step e st) = questionsOf st
  \/ (exists key ms,
        questionsOf (step e st)
        = (mapSet key (mkQuestion (length (promises st)) (nextTimer st))
                  (pendingQuestions st),
           promises st ++ [Waiting],
           <[nextTimer st := mkTimer key (length (promises st)) ms]>
             (timers st),
           S (nextTimer st)))
  \/ (exists h t v,
        timers st !! h = Some t /\ v <> Waiting
        /\ questionsOf (step e st)
           = (mapDelete (questionId t) (pendingQuestions st),
              settle (reject t) v (promises st),
              delete h (timers st), nextTimer st)).
Proof.
  intros Hok.
  destruct e as [env sender text|now sid pn pp|now sid|now|now msg osid|count
                |now question ms|h|env pn prompt|pn|pn|pn
                |now rnd pn pp msg sender prio|pn taskId|chat|]; simpl;
    try (by left).
  - destruct (pendingQuestions st) as [|[k q] rest] eqn:Hpq.
    + left. rewrite onText_routes by assumption.
      apply routeMessage_questions.
    + assert (Hin : In (k, q) (pendingQuestions st)) by (rewrite Hpq; by left).
      pose proof (keys_truthy st Hok k q Hin) as Hk.
      destruct (entry_timer st Hok k q Hin) as [ms Hms].
      right. right. exists (timeout q), (mkTimer k (resolve q) ms),
        (Answered text).
      split; [exact Hms|]. split; [discriminate|].
      rewrite (onText_answers _ _ _ _ _ _ _ Hpq Hk). unfold questionsOf.
      simpl. by rewrite Hpq.
  - left. unfold register. by repeat case_match.
  - left. unfold heartbeat. by repeat case_match.
  - left. unfold notify. by repeat case_match.
  - left. unfold messagesRead. by destruct (markLoop _ _ _).
  - unfold ask. destruct (negb (truthy (chatId st))); [by left|].
    destruct (String.eqb question ""); [by left|].
    right. left. eauto.
  - unfold onTimeout. destruct (timers st !! h) as [t|] eqn:Ht; [|by left].
    right. right. exists h, t, TimedOut. split; [exact Ht|]. split; [discriminate|].
    reflexivity.
  - left. by case_match.
  - left. by case_match.
Qed.

Lemma waitingHaveTimers_step e st :
  QuestionsOk st -> waitingHaveTimers st -> waitingHaveTimers (step e st).
Proof.
  intros Hok Hw.
  destruct (step_questions e st Hok)
    as [H|[(key & ms & H)|(h & t & v & Ht & Hv & H)]];
    unfold questionsOf in H; injection H as Hq Hp Htm Hn;
    intros p Hwait; rewrite Hp in Hwait; rewrite Htm.
  - by apply Hw.
  - destruct (decide (p = length (promises st))) as [->|Hne].
    + do 2 eexists. split; [apply lookup_insert_eq|reflexivity].
    + assert (Hold : promises st !! p = Some Waiting).
      { apply lookup_app_Some in Hwait as [Hwait|[Hge Hwait]]; [exact Hwait|].
        destruct (p - length (promises st))%nat eqn:E; [lia|].
        by destruct n. }
      destruct (Hw p Hold) as (h & t & Ht & Hr). exists h, t.
      split; [|exact Hr]. rewrite lookup_insert_ne; [exact Ht|].
      apply (timer_fresh st Hok) in Ht. lia.
  - pose proof (timer_waiting st Hok h t Ht) as Hrt.
    assert (Hne : p <> reject t).
    { intros ->. rewrite (settle_waiting _ _ _ Hrt) in Hwait.
      injection Hwait as ->. by apply Hv. }
    rewrite settle_other in Hwait by exact Hne.
    destruct (Hw p Hwait) as (h' & t' & Ht' & Hr'). exists h', t'.
    split; [|exact Hr']. rewrite lookup_delete_ne; [exact Ht'|].
    intros ->. rewrite Ht in Ht'. injection Ht' as <-. by apply Hne.
Qed.

(** X16. No question hangs.  In every state the server reaches, a promise
    awaited by [/ask] is still waiting exactly when an armed timer will
    reject it, and that timer is the only one: every [/ask] call is
    answered when its timer fires at the latest, also when its entry in
    [pendingQuestions] has been replaced or deleted by another question. *)
Theorem waiting_promise_has_timer (st : State) (p : nat) :
  Reachable st ->
  (promises st !! p = Some Waiting <->
     exists h t, timers st !! h = Some t /\ reject t = p)
  /\ (forall h h' t t',
        timers st !! h = Some t -> timers st !! h' = Some t' ->
        reject t = p -> reject t' = p -> h = h').
Proof.
  intros Hreach. destruct (reachable_ok st Hreach) as [Hok _].
  assert (Hw : waitingHaveTimers st).
  { clear p Hok. induction Hreach as [chat enabled|e st Hreach IH].
    - intros p Hp. simpl in Hp. by rewrite lookup_nil in Hp.
    - apply waitingHaveTimers_step; [|exact IH].
      by destruct (reachable_ok st Hreach). }
  split; [split|].
  - apply Hw.
  - intros (h & t & Ht & <-). by apply (timer_waiting st Hok h).
  - intros h h' t t' Ht Ht' Hr Hr'. apply (timer_promise st Hok h h' t t' Ht Ht').
    congruence.
Qed.

Lemma waiting_promise_has_timer_witness :
  let st := step (Ask 5 "Really?" (Some 9000)) askedState in
  pendingQuestions st = [("5", mkQuestion 1 1)]
  /\ (promises st !! 0%nat = Some Waiting <->
        exists h t, timers st !! h = Some t /\ reject t = 0%nat).
Proof.
  intros st. split; [reflexivity|].
  apply (waiting_promise_has_timer st 0%nat).
  unfold st, askedState. repeat apply reach_step. apply reach_initial.
Defined.

(** *** Every message is accounted for *)





(** *** Addressing a project *)

Lemma spanChars_all p s : allChars p s = true -> spanChars p s = (s, "").
Proof.
  induction s as [|c s IH]; simpl; [reflexivity|].
  intros H. apply andb_true_iff in H as [Hc Hs]. by rewrite Hc, (IH Hs).
Qed.

Lemma spanChars_append p a c b :
  allChars p a = true -> p c = false ->
  spanChars p (a +:+ String c b) = (a, String c b).
Proof.
  intros Ha Hc. induction a as [|x a IH]; simpl.
  - by rewrite Hc.
  - simpl in Ha. apply andb_true_iff in Ha as [Hx Ha].
    by rewrite Hx, (IH Ha).
Qed.

Lemma spanChars_fst p s : allChars p (fst (spanChars p s)) = true.
Proof.
  induction s as [|c s IH]; simpl; [reflexivity|].
  destruct (p c) eqn:Hc; [|reflexivity].
  destruct (spanChars p s) as [a b]. simpl in *. by rewrite Hc, IH.
Qed.

Lemma spanChars_join p s :
  fst (spanChars p s) +:+ snd (spanChars p s) = s.
Proof.
  induction s as [|c s IH]; simpl; [reflexivity|].
  destruct (p c); [|reflexivity].
  destruct (spanChars p s) as [a b]. simpl in *.
  change (String c a +:+ b) with (String c (a +:+ b)). by rewrite IH.
Qed.

Lemma prefix_append a b : String.prefix a (a +:+ b) = true.
Proof.
  induction a as [|c a IH]; simpl; [by destruct b|].
  destruct (ascii_dec c c); [exact IH|done].
Qed.

Lemma append_colon a rest : (a +:+ ":") +:+ rest = a +:+ String ":" rest.
Proof.
  induction a as [|c a IH]; [reflexivity|].
  change (String c ((a +:+ ":") +:+ rest) = String c (a +:+ String ":" rest)).
  by rewrite IH.
Qed.

(** X18. Addressing works as documented: for a project name made of
    letters, digits, [-] and [_], any white space after the colon, and a
    one-line payload that starts with a character that is not white space,
    the text [name:] + white space + payload is matched by the routing
    pattern, with that name as the target and that payload as the
    message. *)
Theorem address_round_trip (name blank payload : string) :
  name <> "" -> allChars isNameChar name = true ->
  allChars isSpace blank = true ->
  startsTight payload = true -> allChars notLineTerminator payload = true ->
  projectMatch (name +:+ ":" +:+ blank +:+ payload) = Some (name, payload).
Proof.
  intros Hname Hchars Hblank Htight Hline.
  destruct payload as [|c rest]; [discriminate|]. simpl in Htight.
  apply negb_true_iff in Htight.
  unfold projectMatch.
  change (name +:+ ":" +:+ blank +:+ String c rest)
    with (name +:+ String ":" (blank +:+ String c rest)).
  rewrite (spanChars_append isNameChar name ":" _ Hchars eq_refl).
  destruct name as [|n0 name]; [done|]. simpl Ascii.eqb. cbv iota.
  rewrite (spanChars_append isSpace blank c rest Hblank Htight).
  by rewrite (spanChars_all _ _ Hline).
Qed.

Lemma address_round_trip_witness :
  projectMatch ("my_app-2" +:+ ":" +:+ "  " +:+ "run the tests")
  = Some ("my_app-2", "run the tests").
Proof.
  apply address_round_trip; first [discriminate | reflexivity].
Defined.

(** X19. What the routing pattern accepts.  When a text is matched, the
    target is not empty and is made of letters, digits, [-] and [_] only,
    the text starts with the target followed by a colon, and the payload
    is not empty and holds no line terminator: a project whose name has
    any other character cannot be addressed, and only the first line of a
    message is passed on. *)
Theorem address_sound (text target payload : string) :
  projectMatch text = Some (target, payload) ->
  target <> "" /\ allChars isNameChar target = true
  /\ String.prefix (target +:+ ":") text = true
  /\ payload <> "" /\ allChars notLineTerminator payload = true.
Proof.
  intros Hmatch.
  pose proof (RouterFacts.projectMatch_payload _ _ _ Hmatch) as Hpay.
  unfold projectMatch in Hmatch.
  pose proof (spanChars_fst isNameChar text) as Hfst.
  pose proof (spanChars_join isNameChar text) as Hjoin.
  destruct (spanChars isNameChar text) as [t rest]. simpl in *.
  destruct t as [|t0 t]; [discriminate|].
  destruct rest as [|colon rest]; [discriminate|].
  destruct (Ascii.eqb colon ":") eqn:Hcolon; [|discriminate].
  apply Ascii.eqb_eq in Hcolon. subst colon.
  destruct (spanChars isSpace rest) as [blank tail] eqn:E.
  assert (Htarget : target = String t0 t /\ allChars notLineTerminator payload = true).
  { destruct tail as [|c tail].
    - destruct (lastChar notLineTerminator blank) as [d|] eqn:Hlast;
        [|discriminate].
      injection Hmatch as <- <-. split; [reflexivity|]. simpl.
      assert (Hd : forall s d, lastChar notLineTerminator s = Some d ->
                     notLineTerminator d = true).
      { clear. induction s as [|x s IH]; simpl; [discriminate|]. intros d.
        destruct (lastChar notLineTerminator s) as [y|].
        - intros [= <-]. by apply IH.
        - destruct (notLineTerminator x) eqn:Hx; [|discriminate].
          by intros [= <-]. }
      by rewrite (Hd _ _ Hlast).
    - injection Hmatch as <- <-. split; [reflexivity|].
      exact (spanChars_fst notLineTerminator (String c tail)). }
  destruct Htarget as [-> Hline].
  split; [discriminate|]. split; [exact Hfst|]. split; [|split; assumption].
  rewrite <- Hjoin, <- (append_colon (String t0 t) rest).
  apply prefix_append.
Qed.

Lemma address_sound_witness :
  projectMatch "my.app: hello" = None
  /\ projectMatch "Foo: first
second" = Some ("Foo", "first")
  /\ allChars isNameChar "Foo" = true.
Proof.
  split; [reflexivity|]. split; [reflexivity|].
  apply (address_sound "Foo: first
second" "Foo" "first" eq_refl).
Defined.

(** *** Notifications and the last session *)

(** X20. [POST /notify] refuses with 503 while the bridge is disabled,
    whatever else is wrong, then with 400 when no chat is known, then with
    400 when the message is empty, and changes nothing in these cases.
    Otherwise it succeeds; the state changes only when the request names a
    registered session, whose [lastActivity] is then set to [now] while its
    [status] and everything else about it stay, and which becomes the last
    session; an unknown or absent session id leaves the state as it was. *)
Theorem notify_outcome
    (now : Z) (note : string) (sessionId : option string) (st : State) :
  let st' := fst (notify now note sessionId st) in
  let known := match sessionId with
               | Some sid => if String.eqb sid "" then None
                             else mapGet sid (activeSessions st)
               | None => None
               end in
  (ENABLED st = false -> notify now note sessionId st = (st, failed 503))
  /\ (ENABLED st = true -> truthy (chatId st) = false ->
        notify now note sessionId st = (st, failed 400))
  /\ (ENABLED st = true -> truthy (chatId st) = true -> note = "" ->
        notify now note sessionId st = (st, failed 400))
  /\ (ENABLED st = true -> truthy (chatId st) = true -> note <> "" ->
        snd (notify now note sessionId st) = ok tt
        /\ match known, sessionId with
           | Some s, Some sid =>
               lastMessageSession st' = Some sid
               /\ mapGet sid (activeSessions st')
                  = Some (mkSession (id s) (projectName s) (projectPath s)
                                    (startTime s) now (status s))
               /\ (forall other, other <> sid ->
                     mapGet other (activeSessions st')
                     = mapGet other (activeSessions st))
           | _, _ => st' = st
           end).
Proof.
  intros st' known. unfold st', notify. split; [|split; [|split]].
  - by intros ->.
  - by intros -> ->.
  - by intros -> -> ->.
  - intros -> -> Hnote. simpl.
    rewrite (SessionFacts.eqb_empty_false _ Hnote). unfold known.
    destruct sessionId as [sid|]; [|done].
    destruct (String.eqb sid ""); [done|].
    destruct (mapGet sid (activeSessions st)) as [s|]; [|done]. simpl.
    split; [reflexivity|]. split; [reflexivity|].
    split; [apply mapGet_mapSet_eq|].
    intros other Hother. apply mapGet_mapSet_ne. congruence.
Qed.

(** X21. The last session may be gone.  A session sends a notification
    and is then swept after more than 30 minutes of silence.
    [lastMessageSession] still names it, but the next message without a
    prefix is not addressed to it: it goes to the generic inbox, with no
    session id. *)
Theorem expired_last_session_falls_back
    (t later : Z) (note sid : string) (s : ClaudeSession)
    (env : Env) (sender text : string) (st : State) :
  NoDup (mapKeys (activeSessions st)) ->
  ENABLED st = true -> truthy (chatId st) = true ->
  note <> "" -> sid <> "" ->
  mapGet sid (activeSessions st) = Some s ->
  30 * 60 * 1000 < later - t ->
  pendingQuestions st = [] -> projectMatch text = None ->
  let st1 := sweep later (fst (notify t note (Some sid) st)) in
  lastMessageSession st1 = Some sid
  /\ mapGet sid (activeSessions st1) = None
  /\ onText env sender text st1
     = (pushMessage (mkMessage sender text (Bridge.now env) false None) st1,
        [MessageReceived]).
Proof.
  intros Hnd Hen Hchat Hnote Hsid Hs Hidle Hpq Hmatch st1.
  set (st0 := fst (notify t note (Some sid) st)).
  assert (Hst0 : st0 = setLastMessageSession (Some sid)
                         (setSessions (mapSet sid (touch t s)
                                         (activeSessions st)) st)).
  { unfold st0, notify. rewrite Hen, Hchat. simpl.
    rewrite !SessionFacts.eqb_empty_false by assumption. by rewrite Hs. }
  assert (Hnd0 : NoDup (mapKeys (activeSessions st0))).
  { rewrite Hst0. simpl. by apply NoDup_mapSet. }
  assert (Hgone : mapGet sid (activeSessions st1) = None).
  { destruct (sweep_lookup later st0 Hnd0) as [Hgone _].
    apply (Hgone sid (touch t s)).
    - apply mapGet_In. rewrite Hst0. simpl. apply mapGet_mapSet_eq.
    - simpl. unfold SESSION_TIMEOUT. lia. }
  assert (Hlast : lastMessageSession st1 = Some sid).
  { change (lastMessageSession st0 = Some sid). by rewrite Hst0. }
  assert (Hquiet : pendingQuestions st1 = []).
  { change (pendingQuestions st0 = []). by rewrite Hst0. }
  split; [exact Hlast|]. split; [exact Hgone|].
  rewrite (onText_routes _ _ _ _ Hquiet).
  unfold routeMessage. rewrite Hmatch, Hlast, Hgone.
  by destruct (negb (String.eqb sid "")).
Qed.

Lemma expired_last_session_falls_back_witness :
  let st1 := sweep 9000000 (fst (notify 1500 "done" (Some "a") twoWorkers)) in
  lastMessageSession st1 = Some "a"
  /\ snd (onText betaEnv "bob" "and now?" st1) = [MessageReceived].
Proof.
  assert (Hnd : NoDup (mapKeys (activeSessions twoWorkers))).
  { simpl. apply NoDup_cons. split; [|apply NoDup_singleton].
    intros H%list_elem_of_In. destruct H as [H|[]]. discriminate. }
  destruct (expired_last_session_falls_back 1500 9000000 "done" "a"
              (mkSession "a" "Alpha" "/work/alpha" 1000 1000 active)
              betaEnv "bob" "and now?" twoWorkers Hnd eq_refl eq_refl
              ltac:(discriminate) ltac:(discriminate) eq_refl ltac:(lia)
              eq_refl eq_refl) as (Hlast & _ & Htext).
  split; [exact Hlast|]. by rewrite Htext.
Defined.

End BridgeMore.

(** ** The environment file of a project *)

Module EnvFacts.
Import JsString ClaudeSpawner Outcomes.

Example envLine_samples :
  envLine "  # a comment" = None
  /\ envLine "" = None
  /\ envLine "NOVALUE" = None
  /\ envLine "=x" = None
  /\ envLine " API_KEY = abc123  " = Some ("API_KEY", "abc123")
  /\ envLine "NAME=' two  words '" = Some ("NAME", " two  words ")
  /\ envLine "EMPTY=" = Some ("EMPTY", "")
  /\ envLine "URL=http://x/?a=b" = Some ("URL", "http://x/?a=b")
  /\ splitLines "A=1
B=2
" = ["A=1"; "B=2"; ""].
Proof. repeat split; reflexivity. Qed.

(** *** Trimming *)

Lemma cons_append c a b : String c a +:+ b = String c (a +:+ b).
Proof. reflexivity. Qed.

Lemma trimStart_pad a x : allChars isSpace a = true ->
  trimStart (a +:+ x) = trimStart x.
Proof.
  induction a as [|c a IH]; [reflexivity|]. intros H. simpl in H.
  apply andb_true_iff in H as [Hc Ha]. rewrite cons_append. simpl.
  by rewrite Hc, (IH Ha).
Qed.

Lemma trimStart_length s : (String.length (trimStart s) <= String.length s)%nat.
Proof.
  induction s as [|c s IH]; simpl; [lia|]. destruct (isSpace c); simpl; lia.
Qed.

Lemma trimEnd_blank d : allChars isSpace d = true -> trimEnd d = "".
Proof.
  induction d as [|c d IH]; [reflexivity|]. intros H. simpl in H.
  apply andb_true_iff in H as [Hc Hd]. simpl. by rewrite (IH Hd), Hc.
Qed.

Lemma trimEnd_pad x d : allChars isSpace d = true ->
  trimEnd (x +:+ d) = trimEnd x.
Proof.
  intros Hd. induction x as [|c x IH].
  - simpl. by apply trimEnd_blank.
  - rewrite cons_append. simpl. by rewrite IH.
Qed.

(** A tight string is empty, or starts with a character that is not white
    space and is left alone by [trimEnd]. *)
Lemma isTight_cases v : isTight v = true ->
  trimEnd v = v
  /\ (v = "" \/ exists c v', v = String c v' /\ isSpace c = false).
Proof.
  unfold isTight. intros H. apply andb_true_iff in H as [Hs He].
  apply String.eqb_eq in Hs, He. split; [exact He|].
  destruct v as [|c v']; [by left|]. right. exists c, v'. split; [reflexivity|].
  simpl in Hs. destruct (isSpace c); [|reflexivity].
  pose proof (trimStart_length v') as Hlen. rewrite Hs in Hlen. simpl in Hlen.
  lia.
Qed.

Lemma trimEnd_keeps p v : v <> "" -> trimEnd v = v ->
  trimEnd (p +:+ v) = p +:+ v.
Proof.
  intros Hv He. induction p as [|c p IH]; [exact He|].
  rewrite cons_append. simpl. rewrite IH.
  destruct (p +:+ v) eqn:E; [|reflexivity].
  destruct p; simpl in E; [by subst|discriminate].
Qed.

Lemma trimEnd_after p e r : isSpace e = false ->
  trimEnd (p +:+ String e r) = p +:+ String e (trimEnd r).
Proof.
  intros He. induction p as [|c p IH].
  - simpl. destruct (trimEnd r); [by rewrite He|reflexivity].
  - rewrite !cons_append. simpl. rewrite IH.
    destruct (p +:+ String e (trimEnd r)) eqn:E; [|reflexivity].
    destruct p; discriminate.
Qed.

Lemma trim_pad a v d :
  allChars isSpace a = true -> allChars isSpace d = true ->
  isTight v = true -> trim (a +:+ v +:+ d) = v.
Proof.
  intros Ha Hd Hv. unfold trim. rewrite (trimStart_pad a _ Ha).
  destruct (isTight_cases v Hv) as [He [->|(c & v' & -> & Hc)]].
  - simpl. assert (Hblank : trimEnd d = "") by (by apply trimEnd_blank).
    clear Ha Hv He. induction d as [|x d IH]; [reflexivity|].
    simpl in Hd. apply andb_true_iff in Hd as [Hx Hd]. simpl. rewrite Hx.
    apply IH; [exact Hd|by apply trimEnd_blank].
  - rewrite cons_append. simpl trimStart. rewrite Hc.
    rewrite <- cons_append, (trimEnd_pad _ d Hd). exact He.
Qed.

(** *** Positions *)

Lemma indexOfChar_append e p r :
  allChars (fun c => negb (Ascii.eqb c e)) p = true ->
  indexOfChar e (p +:+ String e r) = Some (String.length p).
Proof.
  induction p as [|c p IH]; intros H.
  - simpl. by rewrite Ascii.eqb_refl.
  - simpl in H. apply andb_true_iff in H as [Hc Hp].
    apply negb_true_iff in Hc. rewrite cons_append. simpl.
    by rewrite Hc, (IH Hp).
Qed.

Lemma substring_prefix p r : String.substring 0 (String.length p) (p +:+ r) = p.
Proof.
  induction p as [|c p IH]; [by destruct r|].
  rewrite cons_append. simpl. by rewrite IH.
Qed.

Lemma dropChars_after p e r :
  dropChars (S (String.length p)) (p +:+ String e r) = r.
Proof.
  induction p as [|c p IH]; [reflexivity|]. rewrite cons_append. exact IH.
Qed.

Lemma append_assoc (a b c : string) : (a +:+ b) +:+ c = a +:+ b +:+ c.
Proof.
  induction a as [|x a IH]; [reflexivity|]. rewrite !cons_append. by rewrite IH.
Qed.

Lemma append_empty (a : string) : a +:+ "" = a.
Proof. induction a as [|x a IH]; [reflexivity|]. by rewrite cons_append, IH. Qed.

Lemma allChars_append p a b :
  allChars p a = true -> allChars p b = true -> allChars p (a +:+ b) = true.
Proof.
  intros Ha Hb. induction a as [|c a IH]; [exact Hb|].
  simpl in Ha. apply andb_true_iff in Ha as [Hc Ha]. rewrite cons_append.
  simpl. by rewrite Hc, (IH Ha).
Qed.

Lemma space_not_equals c : isSpace c = true -> negb (Ascii.eqb c "=") = true.
Proof. destruct c as [[] [] [] [] [] [] [] []]; intros H; first [discriminate H|reflexivity]. Qed.

(** *** A line of the file *)

Lemma endsWithChar_append q w : endsWithChar q (w +:+ String q "") = true.
Proof.
  induction w as [|c w IH]; [simpl; apply Ascii.eqb_refl|].
  rewrite cons_append. simpl.
  destruct (w +:+ String q "") eqn:E; [destruct w; discriminate|exact IH].
Qed.

Lemma unquote_quoted q w :
  q = doubleQuote \/ q = "'"%char ->
  unquote (String q (w +:+ String q "")) = w.
Proof.
  intros Hq.
  assert (Hend : endsWithChar q (String q (w +:+ String q "")) = true).
  { exact (endsWithChar_append q (String q w)). }
  assert (Hinner : sliceInner (String q (w +:+ String q "")) = w).
  { unfold sliceInner. simpl String.length.
    rewrite QueueMore.append_length. simpl.
    replace (String.length w + 1 - 1)%nat with (String.length w) by lia.
    apply substring_prefix. }
  unfold unquote. rewrite Hinner.
  destruct Hq as [-> | ->].
  - rewrite Hend. reflexivity.
  - rewrite Hend. reflexivity.
Qed.

(** X22. A line of [.env] of the shape [key = value], with any white
    space around the key, around the value and at both ends, assigns the
    value to the key: the white space is dropped, the key is kept as
    written, and the value is kept as written, or without its quotes when
    it stands between two double quotes or two single quotes.  The key is
    any string that is not empty, has no white space at its ends, no [=],
    and does not start with [#]; the value any string without white space
    at its ends, also the empty one. *)
Theorem env_line_assigns (a key b c value d : string) :
  allChars isSpace a = true -> allChars isSpace b = true ->
  allChars isSpace c = true -> allChars isSpace d = true ->
  key <> "" -> isTight key = true ->
  allChars (fun x => negb (Ascii.eqb x "=")) key = true ->
  startsWithChar "#" key = false ->
  isTight value = true ->
  envLine (a +:+ key +:+ b +:+ "=" +:+ c +:+ value +:+ d)
  = Some (key, unquote value)
  /\ (forall w, unquote (String doubleQuote (w +:+ String doubleQuote ""))
                = w)
  /\ (forall w, unquote (String "'" (w +:+ "'")) = w).
Proof.
  intros Ha Hb Hc Hd Hkey Htight Hnoeq Hhash Hvalue.
  split; [|split; intros w; apply unquote_quoted; [by left|by right]].
  destruct (isTight_cases key Htight) as [_ [->|(k0 & k' & Hk & Hk0)]]; [done|].
  destruct (isTight_cases value Hvalue) as [Hvend Hvcases].
  set (p := key +:+ b).
  assert (Hp : allChars (fun x => negb (Ascii.eqb x "=")) p = true).
  { apply allChars_append; [exact Hnoeq|].
    eapply QueueMore.allChars_impl; [|exact Hb]. apply space_not_equals. }
  (* the value part, trimmed at its end *)
  set (y := trimEnd (c +:+ value)).
  assert (Hy : trim y = value).
  { unfold y. destruct Hvcases as [->|(v0 & v' & Hv & Hv0)].
    - rewrite append_empty, (trimEnd_blank c Hc). reflexivity.
    - rewrite (trimEnd_keeps c value); [|by rewrite Hv|exact Hvend].
      rewrite <- (append_empty value) at 1.
      apply (trim_pad c value ""); [exact Hc|reflexivity|exact Hvalue]. }
  assert (Htrimmed : trim (a +:+ key +:+ b +:+ "=" +:+ c +:+ value +:+ d)
                     = p +:+ String "=" y).
  { unfold trim. rewrite (trimStart_pad a _ Ha).
    assert (Hts : trimStart (key +:+ b +:+ "=" +:+ c +:+ value +:+ d)
                  = key +:+ b +:+ "=" +:+ c +:+ value +:+ d).
    { rewrite Hk, cons_append. simpl. by rewrite Hk0. }
    rewrite Hts.
    replace (key +:+ b +:+ "=" +:+ c +:+ value +:+ d)
      with (p +:+ String "=" ((c +:+ value) +:+ d)).
    - rewrite (trimEnd_after p "=" _ eq_refl). f_equal. f_equal.
      by apply trimEnd_pad.
    - unfold p. rewrite !append_assoc. reflexivity. }
  unfold envLine. rewrite Htrimmed.
  assert (Hne : String.eqb (p +:+ String "=" y) "" = false).
  { unfold p. by rewrite Hk. }
  assert (Hnohash : startsWithChar "#" (p +:+ String "=" y) = false).
  { unfold p. rewrite Hk in *. exact Hhash. }
  rewrite Hne, Hnohash, (indexOfChar_append "=" p y Hp). simpl orb. cbv iota.
  assert (Hpos : (0 <? String.length p)%nat = true).
  { apply Nat.ltb_lt. unfold p. rewrite Hk. simpl. lia. }
  rewrite Hpos, substring_prefix, dropChars_after, Hy. f_equal. f_equal.
  unfold p. rewrite <- (append_empty (key +:+ b)), append_assoc.
  change (key +:+ b +:+ "") with ("" +:+ key +:+ b +:+ "").
  rewrite <- (append_assoc key b ""), (append_empty (key +:+ b)).
  change ("" +:+ key +:+ b) with ("" +:+ key +:+ b).
  exact (trim_pad "" key b eq_refl Hb Htight).
Qed.

Lemma env_line_assigns_witness :
  envLine ("  " +:+ "API_KEY" +:+ " " +:+ "=" +:+ " " +:+ "abc123" +:+ "  ")
  = Some ("API_KEY", "abc123")
  /\ envLine ("" +:+ "NAME" +:+ "" +:+ "=" +:+ "" +:+ "' two  words '" +:+ "")
     = Some ("NAME", " two  words ").
Proof.
  split.
  - destruct (env_line_assigns "  " "API_KEY" " " " " "abc123" "  "
                eq_refl eq_refl eq_refl eq_refl ltac:(discriminate) eq_refl
                eq_refl eq_refl eq_refl) as (Hline & _).
    exact Hline.
  - destruct (env_line_assigns "" "NAME" "" "" "' two  words '" ""
                eq_refl eq_refl eq_refl eq_refl ltac:(discriminate) eq_refl
                eq_refl eq_refl eq_refl) as (Hline & _ & Hsingle).
    rewrite Hline. do 2 f_equal.
Defined.

(** *** The environment of the child *)

Lemma assignVar_lookup env line key :
  assignVar env line !! key
  = match envLine line with
    | Some (k, v) =>
        if String.eqb k key && negb (String.eqb key "__proto__") then Some v
        else env !! key
    | None => env !! key
    end.
Proof.
  unfold assignVar. destruct (envLine line) as [[k v]|]; [|reflexivity].
  destruct (String.eqb_spec k key) as [->|Hne]; simpl.
  - destruct (String.eqb key "__proto__"); simpl; [reflexivity|].
    apply lookup_insert_eq.
  - destruct (String.eqb k "__proto__"); [reflexivity|].
    by apply lookup_insert_ne.
Qed.

Lemma fold_assign_lookup lines : forall env key,
  key <> "__proto__" ->
  fold_left assignVar lines env !! key
  = match lastAssignment key lines with
    | Some v => Some v
    | None => env !! key
    end.
Proof.
  induction lines as [|line rest IH]; intros env key Hkey; simpl;
    [reflexivity|].
  rewrite (IH _ key Hkey). destruct (lastAssignment key rest); [reflexivity|].
  rewrite assignVar_lookup. destruct (envLine line) as [[k v]|]; [|reflexivity].
  apply String.eqb_neq in Hkey. rewrite Hkey, andb_true_r.
  by destruct (String.eqb k key).
Qed.

Lemma fold_assign_proto lines : forall env,
  fold_left assignVar lines env !! "__proto__" = env !! "__proto__".
Proof.
  induction lines as [|line rest IH]; intros env; simpl; [reflexivity|].
  rewrite IH, assignVar_lookup. destruct (envLine line) as [[k v]|];
    [|reflexivity].
  simpl. by rewrite andb_false_r.
Qed.

(** X23. The environment a worker is started with.  [INNERVOICE_SPAWNED]
    is always [1], whatever the project's [.env] or the bridge's own
    environment say.  Every other variable has the value that the last
    line of the project's [.env] assigning it gives it, and the value of
    the bridge's own environment when no line assigns it, when the file is
    missing, or when the variable is [__proto__]. *)
Theorem child_env_lookup
    (processEnv : gmap string string) (file : option string) (key : string) :
  childEnv processEnv (loadEnvFile file) !! key
  = if String.eqb key "INNERVOICE_SPAWNED" then Some "1"
    else
      match (match file with
             | Some content =>
                 if String.eqb key "__proto__" then None
                 else lastAssignment key (splitLines content)
             | None => None
             end) with
      | Some v => Some v
      | None => processEnv !! key
      end.
Proof.
  unfold childEnv.
  destruct (String.eqb_spec key "INNERVOICE_SPAWNED") as [->|Hkey].
  - apply lookup_insert_eq.
  - rewrite lookup_insert_ne by congruence. rewrite lookup_union.
    assert (Hproject : loadEnvFile file !! key
      = match file with
        | Some content =>
            if String.eqb key "__proto__" then None
            else lastAssignment key (splitLines content)
        | None => None
        end).
    { destruct file as [content|]; simpl; [|apply lookup_empty].
      destruct (String.eqb_spec key "__proto__") as [->|Hproto].
      - rewrite fold_assign_proto. apply lookup_empty.
      - rewrite (fold_assign_lookup _ _ _ Hproto), lookup_empty.
        by destruct (lastAssignment key (splitLines content)). }
    rewrite Hproject.
    destruct (match file with Some _ => _ | None => _ end);
      by destruct (processEnv !! key).
Qed.

Example child_env_sample :
  let env := childEnv (<["PATH" := "/bin"]> (<["PORT" := "3456"]> ∅))
               (loadEnvFile (Some "# project settings
PORT=4000
PORT = 5000
INNERVOICE_SPAWNED=0")) in
  env !! "PORT" = Some "5000" /\ env !! "PATH" = Some "/bin"
  /\ env !! "INNERVOICE_SPAWNED" = Some "1".
Proof. vm_compute. repeat split; reflexivity. Qed.

End EnvFacts.
